(** * k8s-secret-compare: a shallow embedding of [main.go] and its properties

    The program reads local Kubernetes Secret manifests, fetches the deployed
    secret of the same namespace and name, compares the two key/value maps
    and prints a report; its exit status says whether differences were seen.

    Layout of this file:
    - [GoStrings]: the functions of Go's [strings] package that [main.go]
      calls, on byte strings;
    - [GoPath]: the fragment of [path/filepath.Match] the default pattern uses;
    - the data model ([KubernetesSecret], [DeployedSecret],
      [SecretDifference]) with Go maps as [gmap string _];
    - the functions of [main.go], callees before callers;
    - the vocabulary of the properties and the example worlds;
    - the properties. *)

From Stdlib Require Import Ascii String ZArith.
From stdpp Require Import gmap strings list fin_maps.

#[local] Set Warnings "-clear-no-such-hyp".

(** ** Go's [strings] package *)

(** A Go [string] is a sequence of bytes: Rocq's [string] (a list of 8-bit
    [ascii]) has the same shape.  The program calls [strings.Contains],
    [strings.Split] and [strings.ReplaceAll] only with a one-byte second
    argument (a newline, a comma, a double quote), so the model takes that
    byte as an [ascii]. *)
Module GoStrings.

Definition newline : ascii := "010"%char.
Definition dquote : ascii := "034"%char.
Definition backslash : ascii := "092"%char.

Definition byte (c : ascii) : string := String c EmptyString.

(** [strings.Contains(s, string(c))] *)
Fixpoint Contains (s : string) (c : ascii) : bool :=
  match s with
  | EmptyString => false
  | String a s' => if decide (a = c) then true else Contains s' c
  end.

(** [strings.Split(s, string(c))]: the pieces of [s] between the
    occurrences of [c]; one piece more than there are occurrences, so the
    empty string gives one empty piece. *)
Fixpoint Split (s : string) (c : ascii) : list string :=
  match s with
  | EmptyString => [EmptyString]
  | String a s' =>
      if decide (a = c) then EmptyString :: Split s' c
      else match Split s' c with
           | piece :: pieces => String a piece :: pieces
           | [] => [byte a]
           end
  end.

(** [strings.Join(elems, sep)] *)
Fixpoint Join (elems : list string) (sep : string) : string :=
  match elems with
  | [] => EmptyString
  | [e] => e
  | e :: rest => e +:+ sep +:+ Join rest sep
  end.

(** [strings.ReplaceAll(s, string(old), new)] *)
Fixpoint ReplaceAll (s : string) (old : ascii) (new : string) : string :=
  match s with
  | EmptyString => EmptyString
  | String a s' =>
      if decide (a = old) then new +:+ ReplaceAll s' old new
      else String a (ReplaceAll s' old new)
  end.

(** [strings.TrimSpace(s)] on ASCII white space (tab, line feed, vertical
    tab, form feed, carriage return, space). *)
Fixpoint TrimLeft (s : string) : string :=
  match s with
  | String a s' => if Ascii.is_space a then TrimLeft s' else s
  | EmptyString => EmptyString
  end.

Definition TrimSpace (s : string) : string :=
  String.rev (TrimLeft (String.rev (TrimLeft s))).

End GoStrings.

(** ** [formatYAMLValue] (main.go, lines 179-193) *)

(** The loop [for _, line := range lines] appends one indented line per
    element; [fmt.Sprintf] with the format of one quoted [%s] wraps the
    escaped value in double quotes. *)
Definition formatYAMLValue (value : string) : string :=
  if GoStrings.Contains value GoStrings.newline then
    let lines := GoStrings.Split value GoStrings.newline in
    let formattedLines :=
      foldl (λ formattedLines line, formattedLines ++ ["    " +:+ line]) [] lines in
    "|-" +:+ GoStrings.byte GoStrings.newline
      +:+ GoStrings.Join formattedLines (GoStrings.byte GoStrings.newline)
  else
    let escapedValue :=
      GoStrings.ReplaceAll value GoStrings.dquote
        (String GoStrings.backslash (GoStrings.byte GoStrings.dquote)) in
    GoStrings.byte GoStrings.dquote +:+ escapedValue +:+ GoStrings.byte GoStrings.dquote.

(** ** Go's [path/filepath.Match] *)

(** The fragment of the pattern language that the program's default pattern
    uses: [*] matches any run of bytes other than the separator, [?] one such
    byte, any other byte itself.  Character classes and escapes (patterns
    with an opening bracket or a backslash) are outside the fragment, and
    [Match] answers [None] for them. *)
Module GoPath.

Definition Separator : ascii := "/"%char.

Fixpoint inFragment (pattern : string) : bool :=
  match pattern with
  | EmptyString => true
  | String c pattern' =>
      if decide (c = "["%char) then false
      else if decide (c = GoStrings.backslash) then false
      else inFragment pattern'
  end.

Fixpoint matches (pattern name : string) {struct pattern} : bool :=
  match pattern with
  | EmptyString => bool_decide (name = EmptyString)
  | String c pattern' =>
      if decide (c = "*"%char) then
        (fix star (name : string) : bool :=
           matches pattern' name
           || match name with
              | EmptyString => false
              | String a name' =>
                  if decide (a = Separator) then false else star name'
              end) name
      else
        match name with
        | EmptyString => false
        | String a name' =>
            if decide (c = "?"%char) then
              if decide (a = Separator) then false else matches pattern' name'
            else
              if decide (a = c) then matches pattern' name' else false
        end
  end.

Definition Match (pattern name : string) : option bool :=
  if inFragment pattern then Some (matches pattern name) else None.

End GoPath.

(** ** The data model (main.go, lines 23-50) *)

(** Go maps are finite maps: [gmap string string].  A nil map and an empty
    map behave alike in every operation the program applies (length, lookup,
    range), so both are [∅]. *)
Record Metadata := {
  Name : string;
  Namespace : string
}.

Record KubernetesSecret := {
  APIVersion : string;
  Kind : string;
  metadata : Metadata;       (* field [Metadata] *)
  secretType : string;       (* field [Type] *)
  StringData : gmap string string
}.

Record DeployedSecret := {
  deployedName : string;      (* field [Name] *)
  deployedNamespace : string; (* field [Namespace] *)
  Data : gmap string string
}.

(** The two [*string] fields are pointers that are nil or point to a fresh
    copy of the value: [option string]. *)
Record SecretDifference := {
  Key : string;
  Local : option string;
  Deployed : option string
}.

Global Instance SecretDifference_eq_dec : EqDecision SecretDifference.
Proof. solve_decision. Defined.

(** The object the cluster returns ([corev1.Secret]): [Data] holds byte
    slices, [StringData] strings. *)
Record ClusterSecret := {
  clusterName : string;
  clusterNamespace : string;
  clusterData : gmap string (list Byte.byte);
  clusterStringData : gmap string string
}.

(** An error of the cluster client: its message, and what
    [errors.IsNotFound] answers for it. *)
Record ApiError := {
  IsNotFound : bool;
  apiMessage : string
}.

(** What the YAML decoder yields for one document of a file. *)
Inductive Decoded :=
  | Document (secret : KubernetesSecret)
  | Malformed (err : string).

(** What [ioutil.ReadFile] followed by the decoder yields for a file: the
    documents up to end of file, in order. *)
Inductive FileContent :=
  | Unreadable (err : string)
  | Documents (docs : list Decoded).

(** Everything outside the program that a run depends on. *)
Record World := {
  (** [getKubernetesClient]: the error it returns, if any *)
  clientError : option string;
  (** [filepath.Join] *)
  filepath_Join : string → string → string;
  (** [filepath.Base] *)
  filepath_Base : string → string;
  (** [filepath.Glob]: the matched paths, or the error's message *)
  filepath_Glob : string → list string + string;
  (** the content of each file *)
  fileContent : string → FileContent;
  (** [clientset.CoreV1().Secrets(namespace).Get(ctx, name, opts)] *)
  clusterGet : string → string → ClusterSecret + ApiError
}.

(** ** Runs: traces and panics *)

(** What a run does that can be observed: lines handed to the logger, text
    written by [fmt], and the calls of [compareSecrets] with their
    arguments.  The logger's prefix (empty, or date, time and file with
    [--verbose]) is not part of [LogLine]. *)
Inductive Event :=
  | LogLine (line : string)
  | Stdout (text : string)
  | CallCompare (local : KubernetesSecret) (deployed : option DeployedSecret).

(** A computation either finishes with a value or panics (a run-time error
    that unwinds the whole program). *)
Inductive Outcome (A : Type) :=
  | Normal (a : A)
  | Panic.
Global Arguments Normal {A} a.
Global Arguments Panic {A}.

Definition Run (A : Type) : Type := list Event * Outcome A.

Global Instance Run_ret : MRet Run := λ A a, ([], Normal a).

Global Instance Run_bind : MBind Run := λ A B f m,
  match m with
  | (t1, Normal a) => let '(t2, r) := f a in (t1 ++ t2, r)
  | (t1, Panic) => (t1, Panic)
  end.

Global Arguments Run_ret : simpl never.
Global Arguments Run_bind : simpl never.

Definition emit (e : Event) : Run unit := ([e], Normal tt).

Definition panic {A} : Run A := ([], Panic).

(** A [for ... range] loop over a slice that threads a state. *)
Fixpoint forEach {A S} (body : A → S → Run S) (l : list A) (s : S) : Run S :=
  match l with
  | [] => mret s
  | a :: l' => s' ← body a s; forEach body l' s'
  end.

Definition NL : string := GoStrings.byte GoStrings.newline.

(** [log.Printf], [log.Println]: the logger ends the line if the message
    does not. *)
Fixpoint endsWithNewline (s : string) : bool :=
  match s with
  | EmptyString => false
  | String a EmptyString => bool_decide (a = GoStrings.newline)
  | String _ s' => endsWithNewline s'
  end.

Definition logOutput (msg : string) : string :=
  if endsWithNewline msg then msg else msg +:+ NL.

Definition logf (msg : string) : Run unit := emit (LogLine (logOutput msg)).

(** [fmt.Printf] with the text already formatted; [fmt.Println]. *)
Definition printf (text : string) : Run unit := emit (Stdout text).
Definition println (text : string) : Run unit := emit (Stdout (text +:+ NL)).

(** ** [parsePatterns] (main.go, lines 196-207) *)

Definition parsePatterns (W : World) (patternStr dir : string) : list string :=
  let rawPatterns := GoStrings.Split patternStr ","%char in
  foldl
    (λ patterns p,
       let trimmed := GoStrings.TrimSpace p in
       if decide (trimmed ≠ EmptyString) then
         let fullPattern := filepath_Join W dir trimmed in
         patterns ++ [fullPattern]
       else patterns)
    [] rawPatterns.

(** The default values of the flags [--dir] and [--pattern] (lines 54-55). *)
Definition defaultDir : string := ".".
Definition defaultPattern : string := "*secret*.yaml,*secret*.yml".

(** ** [parseYAMLSecrets] (main.go, lines 228-270) *)

(** The decoding loop: [docs] is what the decoder still has to yield,
    [secrets] the slice built so far.  The end of [docs] is [io.EOF]. *)
Fixpoint decodeLoop (W : World) (filePath : string) (docs : list Decoded)
    (secrets : list KubernetesSecret) : Run (list KubernetesSecret + string) :=
  match docs with
  | [] => mret (inl secrets)
  | Malformed err :: _ => mret (inr ("error unmarshaling YAML: " +:+ err))
  | Document secret :: docs' =>
      if decide (Kind secret ≠ "Secret") then
        logf ("Skipping non-Secret kind: " +:+ Kind secret +:+ " in file '"
              +:+ filepath_Base W filePath +:+ "'" +:+ NL);;
        decodeLoop W filePath docs' secrets
      else if decide (Name (metadata secret) = EmptyString) then
        logf ("Skipping secret with missing name in file '"
              +:+ filepath_Base W filePath +:+ "'" +:+ NL);;
        decodeLoop W filePath docs' secrets
      else if decide (Namespace (metadata secret) = EmptyString) then
        logf ("Skipping secret with missing namespace in file '"
              +:+ filepath_Base W filePath +:+ "'" +:+ NL);;
        decodeLoop W filePath docs' secrets
      else if decide (size (StringData secret) = 0) then
        logf ("Skipping secret '" +:+ Name (metadata secret)
              +:+ "' in namespace '" +:+ Namespace (metadata secret)
              +:+ "' with no 'stringData' in file '"
              +:+ filepath_Base W filePath +:+ "'" +:+ NL);;
        decodeLoop W filePath docs' secrets
      else
        decodeLoop W filePath docs' (secrets ++ [secret])
  end.

Definition parseYAMLSecrets (W : World) (filePath : string)
    : Run (list KubernetesSecret + string) :=
  match fileContent W filePath with
  | Unreadable err => mret (inr ("error reading file: " +:+ err))
  | Documents docs => decodeLoop W filePath docs []
  end.

(** ** [getDeployedSecret] (main.go, lines 273-300) *)

(** The result is Go's pair of a [*DeployedSecret] and an [error], each of
    which can be nil.  The two [range] loops write into [decodedData] entry
    by entry; [string(value)] keeps the bytes. *)
Definition getDeployedSecret (W : World) (namespace name : string)
    : option DeployedSecret * option string :=
  match clusterGet W namespace name with
  | inr err =>
      if IsNotFound err then (None, None)
      else (None, Some ("error fetching secret: " +:+ apiMessage err))
  | inl secret =>
      let decodedData : gmap string string := ∅ in
      let decodedData :=
        map_fold (λ key value decodedData,
                    <[key := String.string_of_list_byte value]> decodedData)
                 decodedData (clusterData secret) in
      let decodedData :=
        map_fold (λ key value decodedData, <[key := value]> decodedData)
                 decodedData (clusterStringData secret) in
      (Some {| deployedName := clusterName secret;
               deployedNamespace := clusterNamespace secret;
               Data := decodedData |}, None)
  end.

(** ** [compareSecrets] (main.go, lines 303-344) *)

(** [v, ok := m[key]]: the zero value and [false] for a missing key. *)
Definition mapIndex (m : gmap string string) (key : string) : string * bool :=
  match m !! key with
  | Some v => (v, true)
  | None => (EmptyString, false)
  end.

(** The set of all keys, [keysSet], built by two [range] loops. *)
Definition collectKeys (m : gmap string string) (keysSet : gset string) : gset string :=
  map_fold (λ key _ keysSet, {[key]} ∪ keysSet) keysSet m.

(** The body of the loop over [keysSet]. *)
Definition compareKey (localData deployedData : gmap string string)
    (differences : list SecretDifference) (key : string) : list SecretDifference :=
  let '(localVal, localExists) := mapIndex localData key in
  let '(deployedVal, deployedExists) := mapIndex deployedData key in
  if negb localExists && deployedExists then
    differences ++ [{| Key := key; Local := None; Deployed := Some deployedVal |}]
  else if localExists && negb deployedExists then
    differences ++ [{| Key := key; Local := Some localVal; Deployed := None |}]
  else if localExists && deployedExists && negb (String.eqb localVal deployedVal) then
    differences ++ [{| Key := key; Local := Some localVal; Deployed := Some deployedVal |}]
  else differences.

(** The loop over the keys in a given order.  Go leaves the order of a
    [range] over a map open. *)
Definition compareKeys (localData deployedData : gmap string string)
    (keys : list string) : list SecretDifference :=
  foldl (compareKey localData deployedData) [] keys.

(** [deployed] is a pointer: reading [deployed.Data] through a nil pointer
    panics.  The model ranges over [keysSet] in the order of [elements]. *)
Definition compareSecrets (local : KubernetesSecret) (deployed : option DeployedSecret)
    : Outcome (list SecretDifference) :=
  let keysSet := collectKeys (StringData local) ∅ in
  match deployed with
  | None => Panic
  | Some deployed =>
      let keysSet := collectKeys (Data deployed) keysSet in
      Normal (compareKeys (StringData local) (Data deployed) (elements keysSet))
  end.

(** ** [main] (main.go, lines 52-175) *)

(** How the process ends. *)
Inductive Termination :=
  | Fatal                (* [log.Fatalf]: the logger calls [os.Exit(1)] *)
  | Returned             (* [main] returns *)
  | Exited (code : Z)    (* [os.Exit(code)] at the end of [main] *)
  | Crashed.             (* an unrecovered panic *)

(** The status the operating system sees: a returning [main] exits with
    0, the Go run time exits with 2 on an unrecovered panic. *)
Definition exitStatus (t : Termination) : Z :=
  match t with
  | Fatal => 1
  | Returned => 0
  | Exited code => code
  | Crashed => 2
  end.

(** Lines 76-82: the files of every pattern, or the first pattern that
    [filepath.Glob] refuses with its error. *)
Fixpoint globAll (W : World) (patterns : list string) (files : list string)
    : list string + string * string :=
  match patterns with
  | [] => inl files
  | pattern :: patterns' =>
      match filepath_Glob W pattern with
      | inr err => inr (pattern, err)
      | inl matchedFiles => globAll W patterns' (files ++ matchedFiles)
      end
  end.

(** Lines 126-139: the [switch] on one difference.  The state is the pair
    of [missingLocalKeys] and [replaceLocalKeys]. *)
Definition reportDifference (diff : SecretDifference)
    (maps : gmap string string * gmap string string)
    : Run (gmap string string * gmap string string) :=
  let '(missingLocalKeys, replaceLocalKeys) := maps in
  match Local diff, Deployed diff with
  | Some localVal, Some deployedVal =>
      printf (" - [DIFFERENT] " +:+ Key diff +:+ ":" +:+ NL);;
      printf ("   Local:     " +:+ localVal +:+ NL);;
      printf ("   Deployed:  " +:+ deployedVal +:+ NL +:+ NL);;
      mret (missingLocalKeys, <[Key diff := deployedVal]> replaceLocalKeys)
  | Some localVal, None =>
      printf (" - [ONLY IN LOCAL] " +:+ Key diff +:+ ":" +:+ NL);;
      printf ("   Value: " +:+ localVal +:+ NL +:+ NL);;
      mret (missingLocalKeys, replaceLocalKeys)
  | None, Some deployedVal =>
      printf (" - [ONLY IN DEPLOYED] " +:+ Key diff +:+ ":" +:+ NL);;
      printf ("   Value: " +:+ deployedVal +:+ NL +:+ NL);;
      mret (<[Key diff := deployedVal]> missingLocalKeys, replaceLocalKeys)
  | None, None => mret (missingLocalKeys, replaceLocalKeys)
  end.

Definition mergeHeading : string :=
  "Merge following key-value pairs into your local file to match deployed secrets:".
Definition addHeading : string :=
  "Following should be added locally to make it match the deployed secrets:".

(** Lines 143-152 and 153-162: the source writes this block twice, once per
    map, with the two headings.  The entries are printed in the order of
    [map_to_list]. *)
Definition printSnippet (heading : string) (keys : gmap string string) : Run unit :=
  if decide (0 < size keys) then
    println heading;;
    println "```yaml";;
    println "stringData:";;
    forEach (λ '(key, value) _,
               printf ("  " +:+ key +:+ ": " +:+ formatYAMLValue value +:+ NL))
            (map_to_list keys) tt;;
    println "```";;
    println EmptyString
  else mret tt.

(** Lines 116-163: the report on one resource, and the new value of
    [globalDifferencesFound]. *)
Definition reportDifferences (localSecret : KubernetesSecret)
    (differences : list SecretDifference) (globalDifferencesFound : bool) : Run bool :=
  if decide (length differences = 0) then
    printf ("=== " +:+ Name (metadata localSecret) +:+ " (Namespace: "
            +:+ Namespace (metadata localSecret) +:+ ") ===" +:+ NL
            +:+ "All secrets match between the local file and the deployed Kubernetes secret."
            +:+ NL +:+ NL);;
    mret globalDifferencesFound
  else
    printf ("=== " +:+ Name (metadata localSecret) +:+ " (Namespace: "
            +:+ Namespace (metadata localSecret) +:+ ") ===" +:+ NL
            +:+ "Differences found:" +:+ NL);;
    '(missingLocalKeys, replaceLocalKeys) ← forEach reportDifference differences (∅, ∅);
    printSnippet mergeHeading replaceLocalKeys;;
    printSnippet addHeading missingLocalKeys;;
    mret true.

(** Lines 103-163: the body of the loop over the secrets of a file.  An
    error of the fetch is logged and the loop goes on; otherwise
    [compareSecrets] is called with the pointer that was returned. *)
Definition processSecret (W : World) (localSecret : KubernetesSecret)
    (globalDifferencesFound : bool) : Run bool :=
  logf ("Comparing Secret: " +:+ Name (metadata localSecret) +:+ " in Namespace: "
        +:+ Namespace (metadata localSecret) +:+ " . . . " +:+ NL);;
  let '(deployedSecret, err) :=
    getDeployedSecret W (Namespace (metadata localSecret)) (Name (metadata localSecret)) in
  match err with
  | Some err =>
      logf ("Error retrieving deployed secret '" +:+ Name (metadata localSecret)
            +:+ "' in namespace '" +:+ Namespace (metadata localSecret)
            +:+ "': " +:+ err +:+ NL);;
      mret globalDifferencesFound
  | None =>
      emit (CallCompare localSecret deployedSecret);;
      match compareSecrets localSecret deployedSecret with
      | Panic => panic
      | Normal differences =>
          reportDifferences localSecret differences globalDifferencesFound
      end
  end.

(** Lines 92-165: the body of the loop over the files. *)
Definition processFile (W : World) (file : string) (globalDifferencesFound : bool)
    : Run bool :=
  logf ("Processing file: " +:+ filepath_Base W file +:+ NL);;
  parsed ← parseYAMLSecrets W file;
  match parsed with
  | inr err =>
      logf ("Error parsing YAML file '" +:+ filepath_Base W file +:+ "': "
            +:+ err +:+ NL);;
      mret globalDifferencesFound
  | inl localSecrets =>
      forEach (processSecret W) localSecrets globalDifferencesFound
  end.

Definition summaryDifferences : string :=
  "Summary: Differences were found in some secrets.".
Definition summaryMatch : string :=
  "Summary: All secrets match across environments.".

(** [main] from the point where [flag.Parse] (line 57) has returned, with
    the values of the flags [--dir] and [--pattern] as arguments
    ([--verbose] only changes the logger's prefix): lines 59-175.  A run
    that the flag package ends itself (an unknown flag, a request for the
    usage text) is not a run of this function. *)
Definition main (W : World) (dir pattern : string) : list Event * Termination :=
  match clientError W with
  | Some err =>
      ([LogLine (logOutput ("Failed to create Kubernetes client: " +:+ err))], Fatal)
  | None =>
      let patterns := parsePatterns W pattern dir in
      match globAll W patterns [] with
      | inr (pattern, err) =>
          ([LogLine (logOutput ("Error processing pattern '" +:+ pattern +:+ "': "
                                +:+ err))], Fatal)
      | inl files =>
          if decide (length files = 0) then
            ([LogLine (logOutput
                         ("No YAML files matching the specified patterns were found in the directory."
                          +:+ NL))], Returned)
          else
            match forEach (processFile W) files false with
            | (trace, Panic) => (trace, Crashed)
            | (trace, Normal globalDifferencesFound) =>
                if globalDifferencesFound
                then (trace ++ [Stdout (summaryDifferences +:+ NL)], Exited 1)
                else (trace ++ [Stdout (summaryMatch +:+ NL)], Exited 0)
            end
      end
  end.

(** ** Vocabulary of the properties *)

(** The bytes of a string, to say that a byte occurs in it. *)
Definition bytes (s : string) : list ascii := String.list_ascii_of_string s.

(** Escaping as the specification words it: every double quote gets a
    backslash in front of it, every other byte stays as it is. *)
Definition escapeQuotes (v : string) : string :=
  String.string_of_list_ascii
    (mbind (M := list)
       (λ c, if decide (c = GoStrings.dquote)
             then [GoStrings.backslash; GoStrings.dquote] else [c])
       (bytes v)).

(** A line indented by exactly four spaces. *)
Definition indent4 (line : string) : string := "    " +:+ line.

(** The three classes of a difference, as the [switch] of [main]
    (lines 126-139) tells them apart and labels them in the report. *)
Inductive Classification :=
  | DIFFERENT
  | ONLY_IN_LOCAL
  | ONLY_IN_DEPLOYED.

Global Instance Classification_eq_dec : EqDecision Classification.
Proof. solve_decision. Defined.

Definition classify (diff : SecretDifference) : option Classification :=
  match Local diff, Deployed diff with
  | Some _, Some _ => Some DIFFERENT
  | Some _, None => Some ONLY_IN_LOCAL
  | None, Some _ => Some ONLY_IN_DEPLOYED
  | None, None => None
  end.

(** The entry that describes [key]: each side's value where the key is
    present on that side. *)
Definition entryOf (localData deployedData : gmap string string) (key : string)
    : SecretDifference :=
  {| Key := key; Local := localData !! key; Deployed := deployedData !! key |}.

(** The four tests of the decoding loop (lines 248-264) as one predicate:
    the loop skips a document when its kind is not the one kind that the
    source supports (line 248), its name is empty, its namespace is empty,
    or its [stringData] is empty. *)
Definition supportedKinds : list string := ["Secret"].

Definition rejected (secret : KubernetesSecret) : Prop :=
  Kind secret ∉ supportedKinds
  ∨ Name (metadata secret) = EmptyString
  ∨ Namespace (metadata secret) = EmptyString
  ∨ StringData secret = ∅.

Global Instance rejected_dec secret : Decision (rejected secret).
Proof. unfold rejected. apply _. Defined.

(** Modelled from the spec: the kind of a local resource is "one of a fixed
    enumeration (currently two variants)", SecretLike and ConfigLike, that
    is, the kinds [Secret] and [ConfigMap] of the manifests. *)
Definition specSupportedKinds : list string := ["Secret"; "ConfigMap"].

(** Modelled from the spec: "a candidate document is rejected (skipped,
    logged, run continues) if any of: its kind is outside the supported
    enumeration; its name is empty; its namespace is empty; its
    declared-data map is empty". *)
Definition specRejected (secret : KubernetesSecret) : Prop :=
  Kind secret ∉ specSupportedKinds
  ∨ Name (metadata secret) = EmptyString
  ∨ Namespace (metadata secret) = EmptyString
  ∨ StringData secret = ∅.

Global Instance specRejected_dec secret : Decision (specRejected secret).
Proof. unfold specRejected. apply _. Defined.

(** ** Vocabulary of traces *)

(** What a trace says about the comparisons of the run. *)
Definition isCall (e : Event) : bool :=
  match e with CallCompare _ _ => true | _ => false end.

Definition yieldsDifferences (e : Event) : bool :=
  match e with
  | CallCompare local deployed =>
      match compareSecrets local deployed with
      | Normal (_ :: _) => true
      | _ => false
      end
  | _ => false
  end.

Definition callPanics (e : Event) : bool :=
  match e with
  | CallCompare local deployed =>
      match compareSecrets local deployed with
      | Panic => true
      | Normal _ => false
      end
  | _ => false
  end.

(** A step that starts with the verdict [flag] {e tracks} the verdict when,
    if it finishes, the new verdict is the old one or-ed with "some
    comparison of this step found differences", and no comparison of the
    step panicked. *)
Definition tracks (m : Run bool) (flag : bool) : Prop :=
  match m with
  | (t, Normal flag') =>
      flag' = flag || existsb yieldsDifferences t
      ∧ existsb callPanics t = false
  | (_, Panic) => True
  end.

Definition quiet (t : list Event) : Prop := Forall (λ e, isCall e = false) t.

(** A run that finishes and whose events all satisfy [P]. *)
Definition emits {A} (P : Event → Prop) (m : Run A) : Prop :=
  match m with
  | (t, Normal _) => Forall P t
  | (_, Panic) => False
  end.

(** The first byte of the text an event writes to standard output. *)
Definition firstByte (e : Event) : option ascii :=
  match e with
  | Stdout (String a _) => Some a
  | _ => None
  end.

Definition isLog (e : Event) : Prop := ∃ line, e = LogLine line.

(** A world whose cluster never answers "not found". *)
Definition neverAbsent (W : World) : Prop :=
  ∀ namespace name err,
    clusterGet W namespace name = inr err → IsNotFound err = false.

(** ** Vocabulary of the reporter *)

(** The two maps after the loop over the differences, as functions of the
    sequence: each step stores the deployed value of an entry of the class the
    map collects. *)
Definition selectClass (class : Classification) (diff : SecretDifference)
    : option string :=
  if decide (classify diff = Some class) then Deployed diff else None.

Definition storeStep (class : Classification) (keys : gmap string string)
    (diff : SecretDifference) : gmap string string :=
  match selectClass class diff with
  | Some deployedVal => <[Key diff := deployedVal]> keys
  | None => keys
  end.

(** The line of a snippet for one entry of the map. *)
Definition snippetLine (entry : string * string) : Event :=
  Stdout ("  " +:+ entry.1 +:+ ": " +:+ formatYAMLValue entry.2 +:+ NL).

(** A fenced snippet as the report shows it (lines 144-151 and 154-161):
    the heading, the opening fence, the merge-field label, the lines of the
    entries, the closing fence and an empty line. *)
Definition fencedSnippet (heading : string) (lines : list Event) : list Event :=
  [Stdout (heading +:+ NL); Stdout ("```yaml" +:+ NL); Stdout ("stringData:" +:+ NL)]
  ++ lines ++ [Stdout ("```" +:+ NL); Stdout NL].

(** The snippet of a map, for the lines of its entries in some order: none
    when the map is empty. *)
Definition snippetOf (heading : string) (keys : gmap string string)
    (lines : list Event) : list Event :=
  if decide (keys = ∅) then [] else fencedSnippet heading lines.

(** ** Example worlds *)

(** A small world of examples: the local secret holds A=1, B=x, C=same, the
    deployed one A=2, C=same, D=q. *)
Definition exampleLocal : KubernetesSecret :=
  {| APIVersion := "v1"; Kind := "Secret";
     metadata := {| Name := "app"; Namespace := "staging" |};
     secretType := "Opaque";
     StringData := <["A" := "1"]> (<["B" := "x"]> (<["C" := "same"]> ∅)) |}.

Definition exampleDeployed : DeployedSecret :=
  {| deployedName := "app"; deployedNamespace := "staging";
     Data := <["A" := "2"]> (<["C" := "same"]> (<["D" := "q"]> ∅)) |}.

Definition exampleMatching : KubernetesSecret :=
  {| APIVersion := "v1"; Kind := "Secret";
     metadata := {| Name := "same"; Namespace := "staging" |};
     secretType := "Opaque";
     StringData := <["K" := "v"]> (<["L" := "kept"]> ∅) |}.

Definition exampleAbsent : KubernetesSecret :=
  {| APIVersion := "v1"; Kind := "Secret";
     metadata := {| Name := "gone"; Namespace := "staging" |};
     secretType := "Opaque";
     StringData := <["B" := "x"]> ∅ |}.

Definition exampleNoNamespace : KubernetesSecret :=
  {| APIVersion := "v1"; Kind := "Secret";
     metadata := {| Name := "x"; Namespace := EmptyString |};
     secretType := "Opaque";
     StringData := <["K" := "v"]> ∅ |}.

Definition exampleConfigMap : KubernetesSecret :=
  {| APIVersion := "v1"; Kind := "ConfigMap";
     metadata := {| Name := "settings"; Namespace := "staging" |};
     secretType := EmptyString;
     StringData := ∅ |}.

Definition exampleOverlap : ClusterSecret :=
  {| clusterName := "same"; clusterNamespace := "staging";
     clusterData := <["K" := String.list_byte_of_string "old"]>
                      (<["L" := String.list_byte_of_string "kept"]> ∅);
     clusterStringData := <["K" := "v"]> ∅ |}.

(** The cluster of the examples: [app] is deployed with A=2, C=same, D=q;
    [same] with K=old in [data] and K=v in [stringData]; [gone] does not
    exist; every other name is refused. *)
Definition exampleCluster (namespace name : string) : ClusterSecret + ApiError :=
  if decide (name = "app") then
    inl {| clusterName := name; clusterNamespace := namespace;
           clusterData := <["A" := String.list_byte_of_string "2"]>
                            (<["C" := String.list_byte_of_string "same"]>
                               (<["D" := String.list_byte_of_string "q"]> ∅));
           clusterStringData := ∅ |}
  else if decide (name = "same") then inl exampleOverlap
  else if decide (name = "gone") then
    inr {| IsNotFound := true; apiMessage := "secrets gone not found" |}
  else inr {| IsNotFound := false; apiMessage := "forbidden" |}.

(** A world with one matching file, [app-secret.yaml], that holds [docs]. *)
Definition exampleWorld (docs : list Decoded) : World :=
  {| clientError := None;
     filepath_Join := λ dir name, dir +:+ "/" +:+ name;
     filepath_Base := λ path, default EmptyString (last (GoStrings.Split path "/"%char));
     filepath_Glob := λ pattern,
       if decide (pattern = "./*secret*.yaml") then inl ["./app-secret.yaml"]
       else inl [];
     fileContent := λ _, Documents docs;
     clusterGet := exampleCluster |}.

(** The same world when the cluster client cannot be created. *)
Definition exampleNoClient : World :=
  {| clientError := Some "error building kubeconfig: no configuration has been provided";
     filepath_Join := filepath_Join (exampleWorld []);
     filepath_Base := filepath_Base (exampleWorld []);
     filepath_Glob := filepath_Glob (exampleWorld []);
     fileContent := fileContent (exampleWorld []);
     clusterGet := exampleCluster |}.

Definition exampleDocs : list KubernetesSecret :=
  [exampleLocal; exampleNoNamespace; exampleConfigMap; exampleMatching].

Definition exampleDifferences : list SecretDifference :=
  [ {| Key := "A"; Local := Some "1"; Deployed := Some "2" |};
    {| Key := "B"; Local := Some "x"; Deployed := None |};
    {| Key := "D"; Local := None; Deployed := Some "q" |} ].

(** Closes a decidable closed goal by evaluation. *)
Ltac by_evaluation := apply (bool_decide_unpack _); vm_compute; exact I.

(** ** Vocabulary of the further properties *)

(** A difference seen from the other side. *)
Definition swapSides (diff : SecretDifference) : SecretDifference :=
  {| Key := Key diff; Local := Deployed diff; Deployed := Local diff |}.

(** Reading a formatted value back: the inverse of the two layouts of
    [formatYAMLValue].  [unescapeQuotes] drops the backslash in front of a
    double quote, [removeLast] the last byte, [dropBytes] the first bytes. *)
Fixpoint unescapeQuotes (s : string) : string :=
  match s with
  | EmptyString => EmptyString
  | String a s' =>
      match s' with
      | EmptyString => String a EmptyString
      | String b _ =>
          if decide (a = GoStrings.backslash ∧ b = GoStrings.dquote)
          then unescapeQuotes s'
          else String a (unescapeQuotes s')
      end
  end.

Fixpoint removeLast (s : string) : string :=
  match s with
  | EmptyString => EmptyString
  | String a s' =>
      match s' with
      | EmptyString => EmptyString
      | String _ _ => String a (removeLast s')
      end
  end.

Fixpoint dropBytes (n : nat) (s : string) : string :=
  match n, s with
  | S n', String _ s' => dropBytes n' s'
  | _, _ => s
  end.

Definition unformatYAMLValue (text : string) : string :=
  match text with
  | EmptyString => EmptyString
  | String a rest =>
      if decide (a = "|"%char) then
        GoStrings.Join
          (dropBytes 4 <$> GoStrings.Split (dropBytes 2 rest) GoStrings.newline) NL
      else unescapeQuotes (removeLast rest)
  end.

(** The lines that the report prints for one difference (lines 127-138),
    by the sides on which the key has a value. *)
Definition blockOf (diff : SecretDifference) : list Event :=
  match Local diff, Deployed diff with
  | Some localVal, Some deployedVal =>
      [Stdout (" - [DIFFERENT] " +:+ Key diff +:+ ":" +:+ NL);
       Stdout ("   Local:     " +:+ localVal +:+ NL);
       Stdout ("   Deployed:  " +:+ deployedVal +:+ NL +:+ NL)]
  | Some localVal, None =>
      [Stdout (" - [ONLY IN LOCAL] " +:+ Key diff +:+ ":" +:+ NL);
       Stdout ("   Value: " +:+ localVal +:+ NL +:+ NL)]
  | None, Some deployedVal =>
      [Stdout (" - [ONLY IN DEPLOYED] " +:+ Key diff +:+ ":" +:+ NL);
       Stdout ("   Value: " +:+ deployedVal +:+ NL +:+ NL)]
  | None, None => []
  end.

(** The first chunk of the report on a resource with differences. *)
Definition differencesHeader (localSecret : KubernetesSecret) : Event :=
  Stdout ("=== " +:+ Name (metadata localSecret) +:+ " (Namespace: "
          +:+ Namespace (metadata localSecret) +:+ ") ===" +:+ NL
          +:+ "Differences found:" +:+ NL).

(** A call of [compareSecrets] is well formed in a world when its local
    secret passed the loader's tests and its second argument is what the
    fetch returned, without an error, for the namespace and name of that
    secret. *)
Definition wellFormedCall (W : World) (e : Event) : Prop :=
  match e with
  | CallCompare local deployed =>
      ¬ rejected local
      ∧ getDeployedSecret W (Namespace (metadata local)) (Name (metadata local))
        = (deployed, None)
  | _ => True
  end.


(** A secret whose fetch the cluster refuses. *)
Definition exampleDenied : KubernetesSecret :=
  {| APIVersion := "v1"; Kind := "Secret";
     metadata := {| Name := "denied"; Namespace := "staging" |};
     secretType := "Opaque";
     StringData := <["K" := "v"]> ∅ |}.

(** A file whose third document cannot be decoded. *)
Definition exampleBrokenDocs : list Decoded :=
  [Document exampleLocal; Document exampleConfigMap;
   Malformed "yaml: line 7: mapping values are not allowed in this context";
   Document exampleMatching].

(** A world in which [filepath.Glob] refuses every pattern that holds an
    opening bracket. *)
Definition exampleBadGlob : World :=
  {| clientError := None;
     filepath_Join := filepath_Join (exampleWorld []);
     filepath_Base := filepath_Base (exampleWorld []);
     filepath_Glob := λ pattern,
       if GoStrings.Contains pattern "["%char then inr "syntax error in pattern"
       else filepath_Glob (exampleWorld []) pattern;
     fileContent := fileContent (exampleWorld []);
     clusterGet := exampleCluster |}.

(** A pattern string that holds nothing but commas and the white space
    that [strings.TrimSpace] removes. *)
Definition blankPattern (patternStr : string) : Prop :=
  ∀ b, b ∈ bytes patternStr → b = ","%char ∨ Ascii.is_space b = true.

(** * Properties *)

(** ** Strings *)

Section strings_facts.

Implicit Types (s t : string) (c a : ascii).

Lemma str_app_nil_l s : EmptyString +:+ s = s.
Proof. reflexivity. Qed.

Lemma str_app_cons a s t : String a s +:+ t = String a (s +:+ t).
Proof. reflexivity. Qed.

Lemma str_app_nil_r s : s +:+ EmptyString = s.
Proof. induction s as [|a s IH]; [done|]. by rewrite str_app_cons, IH. Qed.

Lemma bytes_app s t : bytes (s +:+ t) = bytes s ++ bytes t.
Proof.
  induction s as [|a s IH]; [done|].
  rewrite str_app_cons. unfold bytes in *. simpl. by rewrite IH.
Qed.

Lemma Contains_true s c : GoStrings.Contains s c = true ↔ c ∈ bytes s.
Proof.
  induction s as [|a s IH]; simpl.
  - split; [done|]. unfold bytes; simpl. by intros ?%elem_of_nil.
  - unfold bytes in *; simpl. rewrite elem_of_cons.
    destruct (decide (a = c)) as [->|Hne]; [by split; [left|]|].
    rewrite IH. split; [by right|]. by intros [?|?].
Qed.

Lemma Contains_false s c : GoStrings.Contains s c = false ↔ c ∉ bytes s.
Proof.
  rewrite <- Contains_true. by destruct (GoStrings.Contains s c).
Qed.

Lemma Split_not_nil s c : GoStrings.Split s c ≠ [].
Proof.
  destruct s as [|a s]; simpl; [done|].
  destruct (decide (a = c)); [done|]. by destruct (GoStrings.Split s c).
Qed.

(** Joining the pieces with the separator gives the string back. *)
Lemma Join_Split s c : GoStrings.Join (GoStrings.Split s c) (GoStrings.byte c) = s.
Proof.
  induction s as [|a s IH]; [done|]. simpl.
  destruct (decide (a = c)) as [->|Hne].
  - pose proof (Split_not_nil s c) as Hnn.
    destruct (GoStrings.Split s c) as [|p ps] eqn:E; [done|].
    change (GoStrings.Join (EmptyString :: p :: ps) (GoStrings.byte c))
      with (EmptyString +:+ GoStrings.byte c +:+ GoStrings.Join (p :: ps) (GoStrings.byte c)).
    by rewrite IH.
  - pose proof (Split_not_nil s c) as Hnn.
    destruct (GoStrings.Split s c) as [|p ps] eqn:E; [done|].
    destruct ps as [|q ps]; simpl in *; [by rewrite IH|].
    rewrite str_app_cons. by rewrite IH.
Qed.

(** No piece contains the separator. *)
Lemma Split_pieces_free s c : Forall (λ piece, c ∉ bytes piece) (GoStrings.Split s c).
Proof.
  induction s as [|a s IH]; simpl.
  - constructor; [|done]. unfold bytes; simpl. by intros ?%elem_of_nil.
  - destruct (decide (a = c)) as [->|Hne].
    + constructor; [|done]. unfold bytes; simpl. by intros ?%elem_of_nil.
    + destruct (GoStrings.Split s c) as [|p ps].
      * constructor; [|done]. unfold bytes; simpl.
        rewrite elem_of_cons. intros [?|?%elem_of_nil]; congruence.
      * inversion IH as [|?? Hp Hps]; subst. constructor; [|done].
        unfold bytes in *; simpl. rewrite elem_of_cons. by intros [?|?].
Qed.

Lemma Split_app_free e s c :
  c ∉ bytes e →
  GoStrings.Split (e +:+ String c s) c = e :: GoStrings.Split s c.
Proof.
  induction e as [|a e IH]; intros Hfree.
  - rewrite str_app_nil_l. simpl. by rewrite decide_True.
  - rewrite str_app_cons. simpl.
    unfold bytes in Hfree; simpl in Hfree. rewrite not_elem_of_cons in Hfree.
    destruct Hfree as [Hne Hfree].
    rewrite decide_False by done. by rewrite (IH Hfree).
Qed.

Lemma Split_free e c : c ∉ bytes e → GoStrings.Split e c = [e].
Proof.
  induction e as [|a e IH]; intros Hfree; [done|]. simpl.
  unfold bytes in Hfree; simpl in Hfree. rewrite not_elem_of_cons in Hfree.
  destruct Hfree as [Hne Hfree].
  rewrite decide_False by done. by rewrite (IH Hfree).
Qed.

(** Splitting is the inverse of joining on separator-free pieces. *)
Lemma Split_Join (pieces : list string) c :
  pieces ≠ [] →
  Forall (λ piece, c ∉ bytes piece) pieces →
  GoStrings.Split (GoStrings.Join pieces (GoStrings.byte c)) c = pieces.
Proof.
  induction pieces as [|e rest IH]; [done|]. intros _ Hfree.
  inversion Hfree as [|?? He Hrest]; subst.
  destruct rest as [|e' rest].
  - simpl. by apply Split_free.
  - change (GoStrings.Join (e :: e' :: rest) (GoStrings.byte c))
      with (e +:+ GoStrings.byte c +:+ GoStrings.Join (e' :: rest) (GoStrings.byte c)).
    unfold GoStrings.byte at 1. rewrite str_app_cons, str_app_nil_l.
    rewrite Split_app_free by done. f_equal. by apply IH.
Qed.

Lemma Contains_Join_two e e' (rest : list string) c :
  c ∈ bytes (GoStrings.Join (e :: e' :: rest) (GoStrings.byte c)).
Proof.
  change (GoStrings.Join (e :: e' :: rest) (GoStrings.byte c))
    with (e +:+ GoStrings.byte c +:+ GoStrings.Join (e' :: rest) (GoStrings.byte c)).
  rewrite !bytes_app. rewrite !elem_of_app. right; left.
  unfold bytes; simpl. rewrite elem_of_cons. by left.
Qed.

Lemma escapeQuotes_cons a v :
  escapeQuotes (String a v)
  = if decide (a = GoStrings.dquote)
    then String GoStrings.backslash (String GoStrings.dquote (escapeQuotes v))
    else String a (escapeQuotes v).
Proof.
  unfold escapeQuotes, bytes. simpl.
  by destruct (decide (a = GoStrings.dquote)).
Qed.

Lemma ReplaceAll_escapeQuotes v :
  GoStrings.ReplaceAll v GoStrings.dquote
    (String GoStrings.backslash (GoStrings.byte GoStrings.dquote)) = escapeQuotes v.
Proof.
  induction v as [|a v IH]; [done|].
  rewrite escapeQuotes_cons. simpl.
  destruct (decide (a = GoStrings.dquote)) as [->|Hne]; by rewrite IH.
Qed.

Lemma escapeQuotes_free v : GoStrings.dquote ∉ bytes v → escapeQuotes v = v.
Proof.
  induction v as [|a v IH]; [done|].
  unfold bytes; simpl. rewrite not_elem_of_cons. intros [Hne Hfree].
  rewrite escapeQuotes_cons, decide_False by done. by rewrite IH.
Qed.

Lemma foldl_snoc_map {A B} (f : A → B) (l : list A) (acc : list B) :
  foldl (λ acc x, acc ++ [f x]) acc l = acc ++ (f <$> l).
Proof.
  revert acc. induction l as [|x l IH]; intros acc; simpl.
  - by rewrite app_nil_r.
  - rewrite IH. by rewrite <- app_assoc.
Qed.

End strings_facts.

(** ** C4: value formatting *)

(** C4.  For every value [v]: if [v] contains a newline, then [v] is the
    newline-join of newline-free lines (at least two of them) and
    [formatYAMLValue v] is [|-], a newline, and these lines, each indented by
    exactly four spaces, joined by newlines; for every such list of lines
    the output has this form.  If [v] contains no newline, the output is [v]
    between double quotes with a backslash put before each double quote of
    [v] and nothing else changed; without quotes in [v] it is [v] between
    double quotes. *)
Theorem formatYAMLValue_spec (v : string) :
  (GoStrings.newline ∈ bytes v →
     ∃ lines : list string,
       2 ≤ length lines ∧
       Forall (λ line, GoStrings.newline ∉ bytes line) lines ∧
       GoStrings.Join lines NL = v ∧
       formatYAMLValue v = "|-" +:+ NL +:+ GoStrings.Join (indent4 <$> lines) NL)
  ∧ (∀ lines : list string,
       2 ≤ length lines →
       Forall (λ line, GoStrings.newline ∉ bytes line) lines →
       formatYAMLValue (GoStrings.Join lines NL)
       = "|-" +:+ NL +:+ GoStrings.Join (indent4 <$> lines) NL)
  ∧ (GoStrings.newline ∉ bytes v →
       formatYAMLValue v
       = GoStrings.byte GoStrings.dquote +:+ escapeQuotes v
           +:+ GoStrings.byte GoStrings.dquote)
  ∧ (GoStrings.newline ∉ bytes v → GoStrings.dquote ∉ bytes v →
       formatYAMLValue v
       = GoStrings.byte GoStrings.dquote +:+ v +:+ GoStrings.byte GoStrings.dquote).
Proof.
  assert (Hblock : ∀ lines : list string,
    2 ≤ length lines →
    Forall (λ line, GoStrings.newline ∉ bytes line) lines →
    formatYAMLValue (GoStrings.Join lines NL)
    = "|-" +:+ NL +:+ GoStrings.Join (indent4 <$> lines) NL).
  { intros lines Hlen Hfree. unfold formatYAMLValue, NL.
    destruct lines as [|e [|e' rest]]; simpl in Hlen; [lia..|].
    pose proof (Contains_Join_two e e' rest GoStrings.newline) as Hin.
    apply Contains_true in Hin. rewrite Hin.
    rewrite Split_Join by done. by rewrite foldl_snoc_map. }
  split; [|split; [done|split]].
  - intros Hin. exists (GoStrings.Split v GoStrings.newline).
    pose proof (Join_Split v GoStrings.newline) as Hjoin.
    pose proof (Split_pieces_free v GoStrings.newline) as Hfree.
    assert (2 ≤ length (GoStrings.Split v GoStrings.newline)) as Hlen.
    { destruct (GoStrings.Split v GoStrings.newline) as [|e [|e' rest]] eqn:E;
        simpl; [|exfalso|lia].
      - by apply Split_not_nil in E.
      - simpl in Hjoin. subst e. by inversion Hfree. }
    split_and!; [done..|].
    rewrite <- Hjoin at 1. by apply Hblock.
  - intros Hfree. unfold formatYAMLValue.
    apply Contains_false in Hfree. rewrite Hfree.
    by rewrite ReplaceAll_escapeQuotes.
  - intros Hfree Hnoquote. unfold formatYAMLValue.
    apply Contains_false in Hfree. rewrite Hfree.
    by rewrite ReplaceAll_escapeQuotes, escapeQuotes_free.
Qed.

(** Scenario 6 of the specification, and a value without newline or quote. *)
Lemma formatYAMLValue_spec_example :
  (2 ≤ length ["line1"; "line2"]
   ∧ Forall (λ line, GoStrings.newline ∉ bytes line) ["line1"; "line2"]
   ∧ formatYAMLValue (GoStrings.Join ["line1"; "line2"] NL)
     = "|-" +:+ NL +:+ "    line1" +:+ NL +:+ "    line2")
  ∧ ((GoStrings.newline ∉ bytes "plain")
     ∧ (GoStrings.dquote ∉ bytes "plain")
     ∧ formatYAMLValue "plain"
       = GoStrings.byte GoStrings.dquote +:+ "plain"
           +:+ GoStrings.byte GoStrings.dquote).
Proof.
  assert (2 ≤ length ["line1"; "line2"]) as Hlen by (simpl; lia).
  assert (Forall (λ line, GoStrings.newline ∉ bytes line) ["line1"; "line2"]) as Hfree
    by by_evaluation.
  assert (GoStrings.newline ∉ bytes "plain") as Hnl by by_evaluation.
  assert (GoStrings.dquote ∉ bytes "plain") as Hdq by by_evaluation.
  split.
  - split; [exact Hlen|]. split; [exact Hfree|].
    exact (proj1 (proj2 (formatYAMLValue_spec EmptyString)) _ Hlen Hfree).
  - split; [exact Hnl|]. split; [exact Hdq|].
    exact (proj2 (proj2 (proj2 (formatYAMLValue_spec "plain"))) Hnl Hdq).
Defined.

(** ** The Diff Engine: [compareSecrets] *)

Section compare_facts.

Implicit Types (localData deployedData : gmap string string).
Implicit Types (key : string) (keys : list string).

Lemma collectKeys_dom (m : gmap string string) (keysSet : gset string) :
  collectKeys m keysSet = dom m ∪ keysSet.
Proof.
  unfold collectKeys.
  apply (map_fold_weak_ind (λ r m, r = dom m ∪ keysSet)).
  - rewrite dom_empty_L. set_solver.
  - intros i x m' r _ ->. rewrite dom_insert_L. set_solver.
Qed.

(** One turn of the loop appends the entry of the key when the two sides
    differ on it, and nothing otherwise. *)
Lemma compareKey_entry localData deployedData differences key :
  compareKey localData deployedData differences key
  = differences ++
      (if decide (localData !! key = deployedData !! key) then []
       else [entryOf localData deployedData key]).
Proof.
  unfold compareKey, mapIndex, entryOf.
  destruct (localData !! key) as [lv|], (deployedData !! key) as [dv|]; simpl.
  - destruct (String.eqb_spec lv dv) as [->|Hne]; simpl.
    + rewrite decide_True by done. by rewrite app_nil_r.
    + rewrite decide_False by congruence. done.
  - done.
  - done.
  - by rewrite app_nil_r.
Qed.

Lemma compareKeys_filter localData deployedData keys :
  compareKeys localData deployedData keys
  = entryOf localData deployedData
      <$> filter (λ key, localData !! key ≠ deployedData !! key) keys.
Proof.
  unfold compareKeys.
  enough (∀ acc, foldl (compareKey localData deployedData) acc keys
                 = acc ++ (entryOf localData deployedData
                     <$> filter (λ key, localData !! key ≠ deployedData !! key) keys))
    as H by apply (H []).
  induction keys as [|key keys IH]; intros acc; simpl.
  - by rewrite app_nil_r.
  - rewrite IH, compareKey_entry, filter_cons.
    destruct (decide (localData !! key = deployedData !! key)) as [Heq|Hne].
    + rewrite decide_False by (by intros ?). by rewrite app_nil_r.
    + rewrite decide_True by done. by rewrite fmap_cons, <- app_assoc.
Qed.

Lemma Key_entryOf localData deployedData keys :
  Key <$> (entryOf localData deployedData <$> keys) = keys.
Proof. rewrite <- list_fmap_compose. by rewrite list_fmap_id. Qed.

(** The order in which the keys are visited only permutes the result. *)
Lemma compareKeys_Permutation localData deployedData keys keys' :
  keys ≡ₚ keys' →
  compareKeys localData deployedData keys ≡ₚ compareKeys localData deployedData keys'.
Proof. intros Hp. rewrite !compareKeys_filter. by rewrite Hp. Qed.

Lemma compareKeys_elem localData deployedData keys diff :
  diff ∈ compareKeys localData deployedData keys ↔
    Key diff ∈ keys
    ∧ localData !! Key diff ≠ deployedData !! Key diff
    ∧ Local diff = localData !! Key diff
    ∧ Deployed diff = deployedData !! Key diff.
Proof.
  rewrite compareKeys_filter, list_elem_of_fmap. split.
  - intros (key & -> & [Hne Hin]%list_elem_of_filter). by simpl.
  - intros (Hin & Hne & Hl & Hd). exists (Key diff). split.
    + destruct diff as [k l d]; simpl in *. unfold entryOf. by subst.
    + by apply list_elem_of_filter.
Qed.

Lemma compareKeys_NoDup localData deployedData keys :
  NoDup keys → NoDup (Key <$> compareKeys localData deployedData keys).
Proof.
  intros Hnd. rewrite compareKeys_filter, Key_entryOf. by apply NoDup_filter.
Qed.

Lemma compareKeys_same (M : gmap string string) keys : compareKeys M M keys = [].
Proof.
  rewrite compareKeys_filter.
  induction keys as [|key keys IH]; [done|].
  rewrite filter_cons, decide_False by (by intros ?). done.
Qed.

Lemma compareSecrets_Normal local deployed :
  compareSecrets local (Some deployed)
  = Normal (compareKeys (StringData local) (Data deployed)
              (elements (dom (Data deployed) ∪ (dom (StringData local) ∪ ∅)))).
Proof. unfold compareSecrets. by rewrite !collectKeys_dom. Qed.

End compare_facts.

(** C2.  For every pair of maps, [compareSecrets] returns a sequence with at
    most one entry per key; a key has an entry exactly when it is in the
    union of the two key sets and the two sides differ on it (present on one
    side only, or present on both with unequal strings); every entry carries
    each side's value where the key is present there, so a key only in the
    local map gives an ONLY_IN_LOCAL entry, a key only in the deployed map an
    ONLY_IN_DEPLOYED entry, a key with unequal values a DIFFERENT entry, and a
    key with equal values none; hence every entry has a value on at least one
    side, and values on both sides are unequal. *)
Theorem compareSecrets_classifies (local : KubernetesSecret) (deployed : DeployedSecret) :
  ∃ differences,
    compareSecrets local (Some deployed) = Normal differences
    ∧ NoDup (Key <$> differences)
    ∧ (∀ key, key ∈ Key <$> differences ↔
         key ∈ dom (StringData local) ∪ dom (Data deployed)
         ∧ StringData local !! key ≠ Data deployed !! key)
    ∧ (∀ diff, diff ∈ differences →
         Local diff = StringData local !! Key diff
         ∧ Deployed diff = Data deployed !! Key diff)
    ∧ (∀ key localVal,
         StringData local !! key = Some localVal → Data deployed !! key = None →
         ∃ diff, diff ∈ differences ∧ classify diff = Some ONLY_IN_LOCAL
           ∧ diff = {| Key := key; Local := Some localVal; Deployed := None |})
    ∧ (∀ key deployedVal,
         StringData local !! key = None → Data deployed !! key = Some deployedVal →
         ∃ diff, diff ∈ differences ∧ classify diff = Some ONLY_IN_DEPLOYED
           ∧ diff = {| Key := key; Local := None; Deployed := Some deployedVal |})
    ∧ (∀ key localVal deployedVal,
         StringData local !! key = Some localVal →
         Data deployed !! key = Some deployedVal →
         localVal ≠ deployedVal →
         ∃ diff, diff ∈ differences ∧ classify diff = Some DIFFERENT
           ∧ diff = {| Key := key; Local := Some localVal; Deployed := Some deployedVal |})
    ∧ (∀ key value,
         StringData local !! key = Some value → Data deployed !! key = Some value →
         key ∉ Key <$> differences)
    ∧ (∀ diff, diff ∈ differences →
         is_Some (classify diff)
         ∧ ∀ localVal deployedVal,
             Local diff = Some localVal → Deployed diff = Some deployedVal →
             localVal ≠ deployedVal).
Proof.
  eexists. split; [apply compareSecrets_Normal|].
  set (keys := elements _).
  assert (Hkeys : ∀ key, key ∈ keys ↔
            key ∈ dom (StringData local) ∪ dom (Data deployed)).
  { intros key. unfold keys. rewrite elem_of_elements. set_solver. }
  assert (Hdiffer : ∀ key, StringData local !! key ≠ Data deployed !! key → key ∈ keys).
  { intros key Hne. apply Hkeys. rewrite elem_of_union, !elem_of_dom.
    destruct (StringData local !! key); [left; eauto|].
    destruct (Data deployed !! key); [right; eauto|done]. }
  assert (Hin : ∀ key, StringData local !! key ≠ Data deployed !! key →
            entryOf (StringData local) (Data deployed) key
              ∈ compareKeys (StringData local) (Data deployed) keys).
  { intros key Hne. apply compareKeys_elem. simpl. auto. }
  split_and!.
  - apply compareKeys_NoDup, NoDup_elements.
  - intros key. rewrite compareKeys_filter, Key_entryOf, list_elem_of_filter, Hkeys.
    tauto.
  - by intros diff (_ & _ & ? & ?)%compareKeys_elem.
  - intros key localVal Hl Hd. eexists. split; [|split; [|done]].
    + specialize (Hin key). unfold entryOf in Hin. rewrite Hl, Hd in Hin.
      by apply Hin.
    + done.
  - intros key deployedVal Hl Hd. eexists. split; [|split; [|done]].
    + specialize (Hin key). unfold entryOf in Hin. rewrite Hl, Hd in Hin.
      by apply Hin.
    + done.
  - intros key localVal deployedVal Hl Hd Hne. eexists. split; [|split; [|done]].
    + specialize (Hin key). unfold entryOf in Hin. rewrite Hl, Hd in Hin.
      apply Hin. congruence.
    + done.
  - intros key value Hl Hd.
    rewrite compareKeys_filter, Key_entryOf, list_elem_of_filter.
    intros [Hne _]. congruence.
  - intros diff (_ & Hne & Hl & Hd)%compareKeys_elem. unfold classify.
    rewrite Hl, Hd. split.
    + destruct (StringData local !! Key diff), (Data deployed !! Key diff);
        by eauto.
    + intros localVal deployedVal Hl' Hd'. congruence.
Qed.

(** The example: A is DIFFERENT with both values, and C, equal on both
    sides, has no entry. *)
Lemma compareSecrets_classifies_example :
  ∃ differences,
    compareSecrets exampleLocal (Some exampleDeployed) = Normal differences
    ∧ StringData exampleLocal !! "A" = Some "1"
    ∧ Data exampleDeployed !! "A" = Some "2"
    ∧ {| Key := "A"; Local := Some "1"; Deployed := Some "2" |} ∈ differences
    ∧ "C" ∉ Key <$> differences.
Proof.
  destruct (compareSecrets_classifies exampleLocal exampleDeployed)
    as (differences & Hrun & _ & _ & _ & _ & _ & Hdifferent & Hequal & _).
  exists differences. split; [exact Hrun|].
  assert (StringData exampleLocal !! "A" = Some "1") as HA by (vm_compute; reflexivity).
  assert (Data exampleDeployed !! "A" = Some "2") as HA' by (vm_compute; reflexivity).
  split; [exact HA|]. split; [exact HA'|]. split.
  - destruct (Hdifferent "A" "1" "2" HA HA') as (diff & Hin & _ & ->);
      [by_evaluation|exact Hin].
  - apply (Hequal "C" "same"); vm_compute; reflexivity.
Defined.

(** C9.  Comparing a map with itself gives the empty sequence, whatever the
    other fields of the two records are and in whatever order the keys are
    visited. *)
Theorem compareSecrets_idempotent (M : gmap string string)
    (apiVersion kind type name namespace : string) (meta : Metadata) :
  compareSecrets
    {| APIVersion := apiVersion; Kind := kind; metadata := meta;
       secretType := type; StringData := M |}
    (Some {| deployedName := name; deployedNamespace := namespace; Data := M |})
  = Normal []
  ∧ ∀ keys : list string, compareKeys M M keys = [].
Proof.
  split.
  - rewrite compareSecrets_Normal. simpl. by rewrite compareKeys_same.
  - apply compareKeys_same.
Qed.

(** ** The fetcher: [getDeployedSecret] *)

(** A [range] loop that stores [f value] under every key of [m] into [acc]
    overwrites the keys of [m] and keeps the other entries of [acc]. *)
Lemma map_fold_store {A} (f : A → string) (m : gmap string A) (acc : gmap string string) :
  map_fold (λ key value acc, <[key := f value]> acc) acc m = (f <$> m) ∪ acc.
Proof.
  apply (map_fold_weak_ind (λ r m, r = (f <$> m) ∪ acc)).
  - by rewrite fmap_empty, (left_id_L ∅ (∪)).
  - intros key value m' r _ ->. by rewrite fmap_insert, insert_union_l.
Qed.

Lemma getDeployedSecret_found W namespace name secret :
  clusterGet W namespace name = inl secret →
  getDeployedSecret W namespace name
  = (Some {| deployedName := clusterName secret;
             deployedNamespace := clusterNamespace secret;
             Data := clusterStringData secret
                     ∪ (String.string_of_list_byte <$> clusterData secret) |},
     None).
Proof.
  intros Hget. unfold getDeployedSecret. rewrite Hget.
  rewrite (map_fold_store String.string_of_list_byte), (right_id_L ∅ (∪)).
  rewrite (map_fold_store id). by rewrite map_fmap_id.
Qed.

(** C10.  When the cluster returns the secret, [getDeployedSecret] returns a
    record and no error, and the map of the record holds, for every key, the
    value of [stringData] if the key is there, and otherwise the value of
    [data] (its bytes read as a string) if the key is there: every entry of
    [data] is copied, then every entry of [stringData], which overwrites. *)
Theorem getDeployedSecret_merges (W : World) (namespace name : string)
    (secret : ClusterSecret) :
  clusterGet W namespace name = inl secret →
  ∃ deployed,
    getDeployedSecret W namespace name = (Some deployed, None)
    ∧ deployedName deployed = clusterName secret
    ∧ deployedNamespace deployed = clusterNamespace secret
    ∧ (∀ key,
         Data deployed !! key
         = match clusterStringData secret !! key with
           | Some value => Some value
           | None => String.string_of_list_byte <$> clusterData secret !! key
           end)
    ∧ dom (Data deployed) = dom (clusterData secret) ∪ dom (clusterStringData secret).
Proof.
  intros Hget. eexists. split; [by apply getDeployedSecret_found|]. simpl.
  split_and!; [done..| |].
  - intros key. rewrite lookup_union, lookup_fmap.
    destruct (clusterStringData secret !! key) as [value|]; simpl.
    + by destruct (String.string_of_list_byte <$> clusterData secret !! key).
    + by destruct (clusterData secret !! key).
  - rewrite dom_union_L, dom_fmap_L. set_solver.
Qed.

(** The secret [same] of the example cluster has K in both fields and L in
    [data] only: K gets the value of [stringData], L the one of [data]. *)
Lemma getDeployedSecret_merges_example :
  clusterGet (exampleWorld []) "staging" "same" = inl exampleOverlap
  ∧ ∃ deployed,
      getDeployedSecret (exampleWorld []) "staging" "same" = (Some deployed, None)
      ∧ Data deployed !! "K" = Some "v"
      ∧ Data deployed !! "L" = Some "kept".
Proof.
  assert (clusterGet (exampleWorld []) "staging" "same" = inl exampleOverlap) as Hget
    by reflexivity.
  split; [exact Hget|].
  destruct (getDeployedSecret_merges (exampleWorld []) "staging" "same"
              exampleOverlap Hget)
    as (deployed & Hrun & _ & _ & Hkeys & _).
  exists deployed. split; [exact Hrun|]. split.
  - rewrite (Hkeys "K"). reflexivity.
  - rewrite (Hkeys "L"). reflexivity.
Defined.

(** ** Runs *)

Section run_facts.

Context {A B : Type}.

Lemma bind_Normal (t : list Event) (a : A) (f : A → Run B) :
  ((t, Normal a) : Run A) ≫= f = (t ++ (f a).1, (f a).2).
Proof. unfold mbind, Run_bind. by destruct (f a). Qed.

Lemma ret_bind (a : A) (f : A → Run B) : mret a ≫= f = f a.
Proof. unfold mret, Run_ret, mbind, Run_bind. by destruct (f a). Qed.

Lemma bind_Panic (t : list Event) (f : A → Run B) :
  ((t, Panic) : Run A) ≫= f = (t, Panic).
Proof. done. Qed.

End run_facts.

Lemma bind_emit {B} (e : Event) (k : unit → Run B) :
  emit e ≫= k = (e :: (k tt).1, (k tt).2).
Proof. unfold emit. by rewrite bind_Normal. Qed.

Lemma quiet_no_differences t : quiet t → existsb yieldsDifferences t = false.
Proof.
  induction 1 as [|e t He _ IH]; [done|]. simpl. rewrite IH.
  by destruct e.
Qed.

Lemma quiet_no_panics t : quiet t → existsb callPanics t = false.
Proof.
  induction 1 as [|e t He _ IH]; [done|]. simpl. rewrite IH.
  by destruct e.
Qed.

Lemma tracks_bind_quiet {A} (m : Run A) (k : A → Run bool) flag :
  quiet m.1 → (∀ a, tracks (k a) flag) → tracks (m ≫= k) flag.
Proof.
  destruct m as [t [a|]]; simpl; intros Hq Hk; [|done].
  rewrite bind_Normal. specialize (Hk a).
  destruct (k a) as [t' [flag'|]]; simpl in *; [|done].
  rewrite !existsb_app, quiet_no_differences, quiet_no_panics by done.
  done.
Qed.

Lemma tracks_forEach {A} (body : A → bool → Run bool) (l : list A) flag :
  (∀ a flag, tracks (body a flag) flag) → tracks (forEach body l flag) flag.
Proof.
  intros Hbody. revert flag. induction l as [|a l IH]; intros flag; cbn [forEach].
  - unfold mret, Run_ret. simpl. by rewrite orb_false_r.
  - specialize (Hbody a flag).
    destruct (body a flag) as [t [flag'|]]; [|done].
    rewrite bind_Normal. specialize (IH flag').
    destruct (forEach body l flag') as [t' [flag''|]]; simpl in *; [|done].
    destruct Hbody as [-> Hp], IH as [-> Hp'].
    rewrite !existsb_app, Hp, Hp'. by rewrite orb_assoc.
Qed.

Section emits_facts.

Context (P : Event → Prop).

Lemma emits_ret {A} (a : A) : emits P (mret a).
Proof. unfold mret, Run_ret. simpl. constructor. Qed.

Lemma emits_bind {A B} (m : Run A) (k : A → Run B) :
  emits P m → (∀ a, emits P (k a)) → emits P (m ≫= k).
Proof.
  destruct m as [t [a|]]; simpl; intros Hm Hk; [|done].
  rewrite bind_Normal. specialize (Hk a).
  destruct (k a) as [t' [b|]]; simpl in *; [|done].
  by apply Forall_app.
Qed.

Lemma emits_emit (e : Event) : P e → emits P (emit e).
Proof. intros He. unfold emit. simpl. by repeat constructor. Qed.

End emits_facts.

Lemma emits_inv {A} (P : Event → Prop) (m : Run A) :
  emits P m → ∃ t a, m = (t, Normal a) ∧ Forall P t.
Proof. destruct m as [t [a|]]; simpl; [eauto|done]. Qed.

(** ** The Reporter *)

Lemma reportDifference_run diff missingLocalKeys replaceLocalKeys :
  ∃ t, reportDifference diff (missingLocalKeys, replaceLocalKeys)
       = (t, Normal (storeStep ONLY_IN_DEPLOYED missingLocalKeys diff, storeStep DIFFERENT replaceLocalKeys diff))
     ∧ Forall (λ e, firstByte e = Some " "%char) t.
Proof.
  unfold reportDifference, storeStep, selectClass, classify, printf.
  destruct (Local diff) as [localVal|], (Deployed diff) as [deployedVal|];
    rewrite ?bind_emit; unfold mret, Run_ret; simpl;
    eexists; (split; [reflexivity|]); by repeat constructor.
Qed.

Lemma reportLoop_run differences missingLocalKeys replaceLocalKeys :
  ∃ t, forEach reportDifference differences (missingLocalKeys, replaceLocalKeys)
       = (t, Normal (foldl (storeStep ONLY_IN_DEPLOYED) missingLocalKeys differences,
                     foldl (storeStep DIFFERENT) replaceLocalKeys differences))
     ∧ Forall (λ e, firstByte e = Some " "%char) t.
Proof.
  revert missingLocalKeys replaceLocalKeys.
  induction differences as [|diff differences IH]; intros m r; cbn [forEach foldl].
  - exists []. by split.
  - destruct (reportDifference_run diff m r) as (t & -> & Ht).
    rewrite bind_Normal.
    destruct (IH (storeStep ONLY_IN_DEPLOYED m diff) (storeStep DIFFERENT r diff)) as (t' & -> & Ht').
    simpl. eexists. split; [done|]. by apply Forall_app.
Qed.

Section store_facts.

Context (class : Classification).
Implicit Types (keys : gmap string string) (differences : list SecretDifference).

Lemma selectClass_Some diff value :
  selectClass class diff = Some value ↔
    classify diff = Some class ∧ Deployed diff = Some value.
Proof. unfold selectClass. case_decide; split; intros; destruct_and?; done. Qed.

Lemma selectClass_is_Some diff :
  class ≠ ONLY_IN_LOCAL →
  is_Some (selectClass class diff) ↔ classify diff = Some class.
Proof.
  intros Hclass. unfold selectClass, classify.
  destruct (Local diff), (Deployed diff); case_decide; split;
    intros; simplify_eq; try done; by eauto.
Qed.

Lemma store_frame keys differences key :
  (∀ diff, diff ∈ differences → Key diff ≠ key) →
  foldl (storeStep class) keys differences !! key = keys !! key.
Proof.
  revert keys. induction differences as [|diff differences IH]; intros keys Hne;
    cbn [foldl]; [done|].
  rewrite IH by (intros ??; apply Hne; by right).
  unfold storeStep. destruct (selectClass class diff); [|done].
  apply lookup_insert_ne, Hne. by left.
Qed.

Lemma store_sound keys differences key value :
  foldl (storeStep class) keys differences !! key = Some value →
  keys !! key = Some value
  ∨ ∃ diff, diff ∈ differences ∧ Key diff = key
            ∧ classify diff = Some class ∧ Deployed diff = Some value.
Proof.
  revert keys. induction differences as [|diff differences IH]; intros keys;
    cbn [foldl]; [by left|].
  intros [Hkeys|(diff' & Hin & Hrest)]%IH.
  - unfold storeStep in Hkeys.
    destruct (selectClass class diff) as [deployedVal|] eqn:Hsel; [|by left].
    destruct (decide (Key diff = key)) as [<-|Hne].
    + rewrite lookup_insert_eq in Hkeys. simplify_eq.
      apply selectClass_Some in Hsel as [??]. right. exists diff.
      split_and!; [by left|done..].
    + rewrite lookup_insert_ne in Hkeys by done. by left.
  - right. exists diff'. split; [by right|done].
Qed.

Lemma store_complete keys differences diff value :
  NoDup (Key <$> differences) →
  diff ∈ differences →
  selectClass class diff = Some value →
  foldl (storeStep class) keys differences !! Key diff = Some value.
Proof.
  revert keys. induction differences as [|diff' differences IH]; intros keys;
    [by intros _ ?%elem_of_nil|].
  rewrite fmap_cons, NoDup_cons. intros [Hfresh Hnd] Hin Hsel. cbn [foldl].
  apply elem_of_cons in Hin as [->|Hin]; [|by apply IH].
  rewrite store_frame.
  - unfold storeStep. rewrite Hsel. apply lookup_insert_eq.
  - intros diff Hin Heq. apply Hfresh. rewrite <- Heq.
    apply list_elem_of_fmap. eauto.
Qed.

Lemma store_absent keys differences key :
  keys !! key = None →
  (∀ diff, diff ∈ differences → Key diff = key → selectClass class diff = None) →
  foldl (storeStep class) keys differences !! key = None.
Proof.
  revert keys. induction differences as [|diff differences IH]; intros keys Hkeys Hnone;
    cbn [foldl]; [done|].
  apply IH; [|intros ???; apply Hnone; [by right|done]].
  unfold storeStep. destruct (selectClass class diff) as [v|] eqn:Hsel; [|done].
  rewrite lookup_insert_ne; [done|].
  intros Heq. rewrite Hnone in Hsel; [done|by left|done].
Qed.

Lemma store_keeps keys differences key :
  is_Some (keys !! key) →
  is_Some (foldl (storeStep class) keys differences !! key).
Proof.
  revert keys. induction differences as [|diff differences IH]; intros keys Hs;
    cbn [foldl]; [done|].
  apply IH. unfold storeStep. destruct (selectClass class diff); [|done].
  rewrite lookup_insert. case_decide; eauto.
Qed.

Lemma store_stored keys differences diff :
  diff ∈ differences →
  is_Some (selectClass class diff) →
  is_Some (foldl (storeStep class) keys differences !! Key diff).
Proof.
  revert keys. induction differences as [|diff' differences IH]; intros keys Hin Hsel;
    [by apply elem_of_nil in Hin|].
  cbn [foldl]. apply elem_of_cons in Hin as [<-|Hin]; [|by apply IH].
  apply store_keeps. destruct Hsel as [value Hsel].
  unfold storeStep. rewrite Hsel, lookup_insert_eq. eauto.
Qed.

Lemma store_dom differences key :
  class ≠ ONLY_IN_LOCAL →
  key ∈ dom (foldl (storeStep class) ∅ differences) ↔
    ∃ diff, diff ∈ differences ∧ Key diff = key ∧ classify diff = Some class.
Proof.
  intros Hclass. rewrite elem_of_dom. split.
  - intros [value [Hempty|(diff & ? & ? & ? & ?)]%store_sound].
    + by rewrite lookup_empty in Hempty.
    + eauto.
  - intros (diff & Hin & <- & Hcl).
    apply store_stored; [done|]. by apply selectClass_is_Some.
Qed.

End store_facts.

Lemma printEntries_run (entries : list (string * string)) :
  forEach (λ '(key, value) _,
             printf ("  " +:+ key +:+ ": " +:+ formatYAMLValue value +:+ NL))
          entries tt
  = (snippetLine <$> entries, Normal tt).
Proof.
  unfold printf.
  induction entries as [|[key value] entries IH]; cbn [forEach]; [done|].
  by rewrite bind_emit, IH.
Qed.

(** A snippet is printed exactly when its map is not empty, and then it is
    the heading, the fence, the label, one line per entry, the closing fence
    and an empty line. *)
Lemma printSnippet_run heading (keys : gmap string string) :
  printSnippet heading keys
  = (if decide (keys = ∅) then []
     else Stdout (heading +:+ NL) :: Stdout ("```yaml" +:+ NL)
          :: Stdout ("stringData:" +:+ NL)
          :: (snippetLine <$> map_to_list keys)
          ++ [Stdout ("```" +:+ NL); Stdout NL],
     Normal tt).
Proof.
  unfold printSnippet.
  destruct (decide (keys = ∅)) as [->|Hne].
  - rewrite decide_False; [done|]. rewrite map_size_empty. lia.
  - rewrite decide_True.
    2:{ apply map_size_non_empty_iff in Hne. lia. }
    unfold println. rewrite !bind_emit. cbn beta.
    rewrite printEntries_run, bind_Normal. unfold emit. done.
Qed.

Lemma snippet_heading_elem heading heading' (keys : gmap string string) a a' :
  firstByte (Stdout (heading +:+ NL)) = Some a →
  firstByte (Stdout (heading' +:+ NL)) = Some a' →
  a' ∉ [" "; "`"; "s"; GoStrings.newline]%char →
  Stdout (heading' +:+ NL) ∈ (printSnippet heading keys).1 ↔
    heading' +:+ NL = heading +:+ NL ∧ keys ≠ ∅.
Proof.
  intros Ha Ha' Hfresh. rewrite printSnippet_run. cbn [fst].
  destruct (decide (keys = ∅)) as [->|Hne].
  { split; [by intros ?%elem_of_nil|by intros [_ ?]]. }
  rewrite !elem_of_cons, elem_of_app, list_elem_of_fmap, !elem_of_cons, elem_of_nil.
  split; [|intros [-> _]; by left].
  assert (∀ e b, Stdout (heading' +:+ NL) = e → firstByte e = Some b →
            b ∈ [" "; "`"; "s"; GoStrings.newline]%char → False) as Hno.
  { intros e b <- Hb Hin. rewrite Ha' in Hb. by simplify_eq. }
  intros [Heq|[Heq|[Heq|[([key value] & Heq & _)|[Heq|[Heq|[]]]]]]].
  - by simplify_eq.
  - exfalso. eapply (Hno _ "`"%char Heq); [done|set_solver].
  - exfalso. eapply (Hno _ "s"%char Heq); [done|set_solver].
  - exfalso. eapply (Hno _ " "%char Heq); [done|set_solver].
  - exfalso. eapply (Hno _ "`"%char Heq); [done|set_solver].
  - exfalso. eapply (Hno _ GoStrings.newline Heq); [done|set_solver].
Qed.

Lemma reportDifferences_run localSecret differences flag :
  ∃ header loopTrace,
    firstByte header = Some "="%char
    ∧ Forall (λ e, firstByte e = Some " "%char) loopTrace
    ∧ reportDifferences localSecret differences flag
      = (if decide (differences = []) then [header]
         else header :: loopTrace
              ++ (printSnippet mergeHeading
                    (foldl (storeStep DIFFERENT) ∅ differences)).1
              ++ (printSnippet addHeading
                    (foldl (storeStep ONLY_IN_DEPLOYED) ∅ differences)).1,
         Normal (if decide (differences = []) then flag else true)).
Proof.
  unfold reportDifferences.
  destruct (decide (differences = [])) as [->|Hne].
  - rewrite decide_True by done. unfold printf. rewrite bind_emit.
    eexists _, []. split_and!; [| |reflexivity]; [done|done].
  - rewrite decide_False by (by destruct differences).
    destruct (reportLoop_run differences ∅ ∅) as (loopTrace & Hloop & Hfirst).
    unfold printf. rewrite bind_emit, Hloop, bind_Normal.
    rewrite !printSnippet_run, !bind_Normal. cbn [fst snd].
    change (mret true : Run bool) with (([], Normal true) : Run bool).
    cbn [fst snd]. rewrite app_nil_r.
    eexists _, loopTrace. split_and!; [| |reflexivity]; [done|done].
Qed.

Lemma NoDup_fmap_elem_inj {A B} (f : A → B) (l : list A) (x y : A) :
  NoDup (f <$> l) → x ∈ l → y ∈ l → f x = f y → x = y.
Proof.
  induction l as [|a l IH]; [by intros _ ?%elem_of_nil|].
  rewrite fmap_cons, NoDup_cons. intros [Hfresh Hnd].
  rewrite !elem_of_cons. intros [->|Hx] [->|Hy] Heq; [done| | |by apply IH].
  - exfalso. apply Hfresh. rewrite Heq. apply list_elem_of_fmap. eauto.
  - exfalso. apply Hfresh. rewrite <- Heq. apply list_elem_of_fmap. eauto.
Qed.

Lemma heading_in_report localSecret differences flag heading :
  heading = mergeHeading ∨ heading = addHeading →
  Stdout (heading +:+ NL) ∈ (reportDifferences localSecret differences flag).1 ↔
    Stdout (heading +:+ NL)
      ∈ (printSnippet mergeHeading (foldl (storeStep DIFFERENT) ∅ differences)).1
        ++ (printSnippet addHeading
              (foldl (storeStep ONLY_IN_DEPLOYED) ∅ differences)).1.
Proof.
  intros Hheading.
  destruct (reportDifferences_run localSecret differences flag)
    as (header & loopTrace & Hheader & Hloop & ->). cbn [fst].
  assert (∃ a, firstByte (Stdout (heading +:+ NL)) = Some a
               ∧ a ≠ "="%char ∧ a ≠ " "%char) as (a & Ha & Ha1 & Ha2).
  { destruct Hheading as [-> | ->]; eexists; (split; [reflexivity|done]). }
  assert (Stdout (heading +:+ NL) ≠ header) as Hnh by (intros <-; congruence).
  assert (Stdout (heading +:+ NL) ∉ loopTrace) as Hnl.
  { intros Hin. rewrite Forall_forall in Hloop. apply Hloop in Hin. congruence. }
  destruct (decide (differences = [])) as [->|Hne].
  - rewrite elem_of_cons, elem_of_nil. cbn [foldl].
    rewrite !printSnippet_run. rewrite !decide_True by done. cbn [fst app].
    rewrite elem_of_nil. tauto.
  - rewrite elem_of_cons, elem_of_app. tauto.
Qed.

(** The snippet of a map is fenced, with one line per entry of the map. *)
Lemma printSnippet_fenced heading (keys : gmap string string) :
  ∃ lines,
    lines ≡ₚ snippetLine <$> map_to_list keys
    ∧ printSnippet heading keys = (snippetOf heading keys lines, Normal tt).
Proof.
  exists (snippetLine <$> map_to_list keys). split; [done|].
  rewrite printSnippet_run. unfold snippetOf, fencedSnippet.
  by destruct (decide (keys = ∅)).
Qed.

(** The report on a resource with differences: the heading, what the loop
    over the differences prints, and the two snippets of the maps that the
    loop built. *)
Lemma reportDifferences_trace localSecret differences flag loopTrace
    (missingLocalKeys replaceLocalKeys : gmap string string) :
  differences ≠ [] →
  forEach reportDifference differences (∅, ∅)
    = (loopTrace, Normal (missingLocalKeys, replaceLocalKeys)) →
  reportDifferences localSecret differences flag
  = (differencesHeader localSecret :: loopTrace
       ++ (printSnippet mergeHeading replaceLocalKeys).1
       ++ (printSnippet addHeading missingLocalKeys).1,
     Normal true).
Proof.
  intros Hne Hloop. unfold reportDifferences.
  rewrite decide_False by (by destruct differences).
  unfold printf. rewrite bind_emit, Hloop, bind_Normal. cbn beta iota.
  rewrite !printSnippet_run, !bind_Normal. cbn [fst snd].
  change (mret true : Run bool) with (([], Normal true) : Run bool).
  cbn [fst snd]. by rewrite app_nil_r.
Qed.

(** C5.  For every difference sequence, the loop over it finishes with the
    two maps, where: the keys of [replaceLocalKeys] are exactly the keys of
    the entries classified DIFFERENT, those of [missingLocalKeys] exactly the
    keys of the entries classified ONLY_IN_DEPLOYED; every value of either
    map is the deployed value of such an entry; when no key occurs twice in
    the sequence (as in every result of [compareSecrets]), a DIFFERENT entry
    is in [replaceLocalKeys] with its deployed value and not in the other
    map, an ONLY_IN_DEPLOYED entry is in [missingLocalKeys] with its deployed
    value and not in the other map, and an ONLY_IN_LOCAL entry is in neither;
    the report contains the heading of the merge snippet exactly when
    [replaceLocalKeys] is not empty, the heading of the add snippet exactly
    when [missingLocalKeys] is not empty; and the report is the heading of
    the resource, what the loop printed, and then the two snippets, each
    absent when its map is empty and otherwise rendered in full: its
    heading, the opening fence, the label [stringData:], one line
    [key: formattedValue] for every entry of the map (in some order), the
    closing fence and an empty line. *)
Theorem reporter_accumulators (localSecret : KubernetesSecret)
    (differences : list SecretDifference) (flag : bool) :
  ∃ loopTrace missingLocalKeys replaceLocalKeys,
    forEach reportDifference differences (∅, ∅)
      = (loopTrace, Normal (missingLocalKeys, replaceLocalKeys))
    ∧ (∀ key, key ∈ dom replaceLocalKeys ↔
         ∃ diff, diff ∈ differences ∧ Key diff = key
                 ∧ classify diff = Some DIFFERENT)
    ∧ (∀ key, key ∈ dom missingLocalKeys ↔
         ∃ diff, diff ∈ differences ∧ Key diff = key
                 ∧ classify diff = Some ONLY_IN_DEPLOYED)
    ∧ (∀ key value, replaceLocalKeys !! key = Some value →
         ∃ diff, diff ∈ differences ∧ Key diff = key
                 ∧ classify diff = Some DIFFERENT ∧ Deployed diff = Some value)
    ∧ (∀ key value, missingLocalKeys !! key = Some value →
         ∃ diff, diff ∈ differences ∧ Key diff = key
                 ∧ classify diff = Some ONLY_IN_DEPLOYED
                 ∧ Deployed diff = Some value)
    ∧ (NoDup (Key <$> differences) →
       ∀ diff, diff ∈ differences →
         match classify diff with
         | Some DIFFERENT =>
             replaceLocalKeys !! Key diff = Deployed diff
             ∧ missingLocalKeys !! Key diff = None
         | Some ONLY_IN_DEPLOYED =>
             missingLocalKeys !! Key diff = Deployed diff
             ∧ replaceLocalKeys !! Key diff = None
         | _ =>
             replaceLocalKeys !! Key diff = None
             ∧ missingLocalKeys !! Key diff = None
         end)
    ∧ (Stdout (mergeHeading +:+ NL)
         ∈ (reportDifferences localSecret differences flag).1
       ↔ replaceLocalKeys ≠ ∅)
    ∧ (Stdout (addHeading +:+ NL)
         ∈ (reportDifferences localSecret differences flag).1
       ↔ missingLocalKeys ≠ ∅)
    ∧ ∃ mergeLines addLines,
        mergeLines ≡ₚ snippetLine <$> map_to_list replaceLocalKeys
        ∧ addLines ≡ₚ snippetLine <$> map_to_list missingLocalKeys
        ∧ (differences ≠ [] →
           (reportDifferences localSecret differences flag).1
           = differencesHeader localSecret :: loopTrace
             ++ snippetOf mergeHeading replaceLocalKeys mergeLines
             ++ snippetOf addHeading missingLocalKeys addLines).
Proof.
  destruct (reportLoop_run differences ∅ ∅) as (loopTrace & Hloop & _).
  eexists _, _, _. split; [exact Hloop|].
  split_and!.
  - intros key. by apply store_dom.
  - intros key. by apply store_dom.
  - intros key value [Hempty|?]%store_sound; [|done].
    by rewrite lookup_empty in Hempty.
  - intros key value [Hempty|?]%store_sound; [|done].
    by rewrite lookup_empty in Hempty.
  - intros Hnd diff Hin.
    assert (∀ class, classify diff ≠ Some class →
              foldl (storeStep class) ∅ differences !! Key diff = None) as Hout.
    { intros class Hclass. apply store_absent; [apply lookup_empty|].
      intros diff' Hin' Hkey.
      assert (diff' = diff) as ->.
      { by apply (NoDup_fmap_elem_inj Key differences). }
      unfold selectClass. by rewrite decide_False. }
    assert (∀ class value, classify diff = Some class → Deployed diff = Some value →
              foldl (storeStep class) ∅ differences !! Key diff = Some value) as Hin'.
    { intros class value Hclass Hvalue. apply store_complete; [done..|].
      unfold selectClass. by rewrite decide_True. }
    unfold classify in *.
    destruct (Local diff) as [localVal|], (Deployed diff) as [deployedVal|].
    + split; [by apply Hin'|by apply Hout].
    + split; by apply Hout.
    + split; [by apply Hin'|by apply Hout].
    + split; by apply Hout.
  - rewrite heading_in_report by (by left). rewrite elem_of_app.
    rewrite (snippet_heading_elem mergeHeading mergeHeading _ "M" "M");
      [|done|done|set_solver].
    rewrite (snippet_heading_elem addHeading mergeHeading _ "F" "M");
      [|done|done|set_solver].
    split; [intros [[_ ?]|[? _]]; done|intros ?; by left].
  - rewrite heading_in_report by (by right). rewrite elem_of_app.
    rewrite (snippet_heading_elem mergeHeading addHeading _ "M" "F");
      [|done|done|set_solver].
    rewrite (snippet_heading_elem addHeading addHeading _ "F" "F");
      [|done|done|set_solver].
    split; [intros [[? _]|[_ ?]]; done|intros ?; by right].
  - destruct (printSnippet_fenced mergeHeading
                (foldl (storeStep DIFFERENT) ∅ differences))
      as (mergeLines & Hmerge & Hmrun).
    destruct (printSnippet_fenced addHeading
                (foldl (storeStep ONLY_IN_DEPLOYED) ∅ differences))
      as (addLines & Hadd & Harun).
    exists mergeLines, addLines. split_and!; [done..|].
    intros Hne.
    by rewrite (reportDifferences_trace _ _ _ _ _ _ Hne Hloop), Hmrun, Harun.
Qed.

(** Scenarios 2 and 3 of the specification in one report: A goes to
    [replaceLocalKeys], D to [missingLocalKeys], B to neither. *)
Lemma reporter_accumulators_example :
  NoDup (Key <$> exampleDifferences)
  ∧ ∃ loopTrace missingLocalKeys replaceLocalKeys,
      forEach reportDifference exampleDifferences (∅, ∅)
        = (loopTrace, Normal (missingLocalKeys, replaceLocalKeys))
      ∧ replaceLocalKeys !! "A" = Some "2"
      ∧ missingLocalKeys !! "D" = Some "q"
      ∧ replaceLocalKeys !! "B" = None
      ∧ missingLocalKeys !! "B" = None.
Proof.
  assert (NoDup (Key <$> exampleDifferences)) as Hnd by by_evaluation.
  split; [exact Hnd|].
  destruct (reporter_accumulators exampleLocal exampleDifferences false)
    as (loopTrace & missingLocalKeys & replaceLocalKeys & Hrun & _ & _ & _ & _
        & Hentries & _).
  exists loopTrace, missingLocalKeys, replaceLocalKeys. split; [exact Hrun|].
  pose proof (Hentries Hnd {| Key := "A"; Local := Some "1"; Deployed := Some "2" |}
                ltac:(by_evaluation)) as HA.
  pose proof (Hentries Hnd {| Key := "B"; Local := Some "x"; Deployed := None |}
                ltac:(by_evaluation)) as HB.
  pose proof (Hentries Hnd {| Key := "D"; Local := None; Deployed := Some "q" |}
                ltac:(by_evaluation)) as HD.
  simpl in HA, HB, HD.
  split; [exact (proj1 HA)|]. split; [exact (proj1 HD)|].
  split; [exact (proj1 HB)|exact (proj2 HB)].
Defined.

(** ** The loader: [parseYAMLSecrets] *)

Lemma emits_logf (P : Event → Prop) msg :
  (∀ line, P (LogLine line)) → emits P (logf msg).
Proof. intros HP. unfold logf. by apply emits_emit. Qed.

Lemma logf_run msg : ∃ line, logf msg = ([LogLine line], Normal tt).
Proof. unfold logf, emit. eauto. Qed.

Lemma endsWithNewline_app s t :
  endsWithNewline t = true → endsWithNewline (s +:+ t) = true.
Proof.
  intros Ht. induction s as [|a s IH]; [done|].
  rewrite str_app_cons. cbn [endsWithNewline].
  destruct (s +:+ t) eqn:E; [|done].
  destruct s; [|done]. rewrite str_app_nil_l in E. by subst.
Qed.

(** A message that ends its line is logged as it is. *)
Lemma logf_line msg :
  endsWithNewline msg = true → logf msg = emit (LogLine msg).
Proof. intros Hnl. unfold logf, logOutput. by rewrite Hnl. Qed.

(** The four tests of the loop, in the order of the source, skip exactly
    the documents that [rejected] describes. *)
Lemma decodeLoop_step W filePath secret docs secrets :
  ∃ line,
    decodeLoop W filePath (Document secret :: docs) secrets
    = if decide (rejected secret)
      then logf line ≫= (λ _, decodeLoop W filePath docs secrets)
      else decodeLoop W filePath docs (secrets ++ [secret]).
Proof.
  cbn [decodeLoop]. unfold rejected, supportedKinds.
  destruct (decide (Kind secret ≠ "Secret")) as [Hk|Hk].
  { eexists. rewrite decide_True; [done|]. left. set_solver. }
  apply dec_stable in Hk.
  destruct (decide (Name (metadata secret) = EmptyString)) as [Hn|Hn].
  { eexists. rewrite decide_True; [done|]. auto. }
  destruct (decide (Namespace (metadata secret) = EmptyString)) as [Hs|Hs].
  { eexists. rewrite decide_True; [done|]. auto. }
  destruct (decide (size (StringData secret) = 0)) as [Hd|Hd].
  { eexists. rewrite decide_True; [done|].
    do 3 right. by apply map_size_empty_iff. }
  exists EmptyString. rewrite decide_False; [done|].
  intros [Hk'|[?|[?|Hd']]]; try done.
  - apply Hk'. rewrite Hk. set_solver.
  - apply Hd. by apply map_size_empty_iff.
Qed.


(** A document that the decoder cannot decode is not a rejection: it ends
    the file with an error, and the documents accepted before it are not
    returned. *)
Lemma decodeLoop_malformed W filePath (docs : list KubernetesSecret) err rest secrets :
  ∃ logs,
    decodeLoop W filePath ((Document <$> docs) ++ Malformed err :: rest) secrets
    = (logs, Normal (inr ("error unmarshaling YAML: " +:+ err)))
    ∧ Forall isLog logs
    ∧ length logs = length (filter rejected docs).
Proof.
  revert secrets. induction docs as [|secret docs IH]; intros secrets.
  - exists []. by split_and!.
  - rewrite fmap_cons, <- app_comm_cons.
    destruct (decodeLoop_step W filePath secret
                ((Document <$> docs) ++ Malformed err :: rest) secrets)
      as (line & ->).
    rewrite filter_cons.
    destruct (decide (rejected secret)) as [Hr|Hr].
    + destruct (logf_run line) as (text & ->). rewrite bind_Normal.
      destruct (IH secrets) as (logs & -> & Hlogs & Hlen). cbn [fst snd].
      eexists. split_and!; [done| |].
      * constructor; [by eexists|done].
      * simpl. by rewrite Hlen.
    + apply IH.
Qed.


Lemma decodeLoop_logs W filePath docs secrets :
  emits isLog (decodeLoop W filePath docs secrets).
Proof.
  revert secrets. induction docs as [|[secret|err] docs IH]; intros secrets;
    cbn [decodeLoop]; [apply emits_ret| |apply emits_ret].
  repeat case_decide;
    try (apply emits_bind; [apply emits_logf; by eexists|intros _]); apply IH.
Qed.

Lemma parseYAMLSecrets_logs W filePath : emits isLog (parseYAMLSecrets W filePath).
Proof.
  unfold parseYAMLSecrets. destruct (fileContent W filePath).
  - apply emits_ret.
  - apply decodeLoop_logs.
Qed.

Lemma isLog_quiet e : isLog e → isCall e = false.
Proof. by intros [line ->]. Qed.

(** ** The main loop *)

Lemma reportDifferences_quiet localSecret differences flag :
  ∃ t, reportDifferences localSecret differences flag
       = (t, Normal (if decide (differences = []) then flag else true))
     ∧ quiet t.
Proof.
  destruct (reportDifferences_run localSecret differences flag)
    as (header & loopTrace & Hheader & Hloop & ->).
  eexists. split; [done|].
  assert (∀ e a, firstByte e = Some a → isCall e = false) as Hout.
  { by intros [] a. }
  assert (isCall header = false) as Hh by eauto.
  destruct (decide (differences = [])); [by repeat constructor|].
  assert (∀ heading keys, quiet (printSnippet heading keys).1) as Hsnippet.
  { intros heading keys. rewrite printSnippet_run. cbn [fst]. unfold quiet.
    case_decide; [done|]. repeat (constructor; [done|]).
    apply Forall_app. split; [|by repeat constructor].
    by apply Forall_fmap, Forall_true. }
  unfold quiet. constructor; [done|].
  apply Forall_app. split.
  { eapply Forall_impl; [exact Hloop|]. intros e He. exact (Hout e _ He). }
  apply Forall_app. split; apply Hsnippet.
Qed.

(** The steps of the loop on one secret, by what the fetch returns. *)
Lemma processSecret_run W localSecret flag :
  ∃ line,
    processSecret W localSecret flag
    = match getDeployedSecret W (Namespace (metadata localSecret))
              (Name (metadata localSecret)) with
      | (_, Some err) =>
          ([LogLine line;
            LogLine ("Error retrieving deployed secret '"
                     +:+ Name (metadata localSecret) +:+ "' in namespace '"
                     +:+ Namespace (metadata localSecret) +:+ "': " +:+ err +:+ NL)],
           Normal flag)
      | (deployedSecret, None) =>
          match compareSecrets localSecret deployedSecret with
          | Panic => ([LogLine line; CallCompare localSecret deployedSecret], Panic)
          | Normal differences =>
              (LogLine line :: CallCompare localSecret deployedSecret
                 :: (reportDifferences localSecret differences flag).1,
               (reportDifferences localSecret differences flag).2)
          end
      end.
Proof.
  unfold processSecret.
  destruct (logf_run ("Comparing Secret: " +:+ Name (metadata localSecret)
                      +:+ " in Namespace: " +:+ Namespace (metadata localSecret)
                      +:+ " . . . " +:+ NL)) as (line & ->).
  exists line. rewrite bind_Normal.
  destruct (getDeployedSecret _ _ _) as [deployedSecret [err|]].
  - rewrite logf_line by (repeat apply endsWithNewline_app; reflexivity). by rewrite bind_emit.
  - rewrite bind_emit.
    destruct (compareSecrets localSecret deployedSecret) as [differences|]; [|done].
    by destruct (reportDifferences localSecret differences flag).
Qed.

Lemma processSecret_tracks W localSecret flag :
  tracks (processSecret W localSecret flag) flag.
Proof.
  destruct (processSecret_run W localSecret flag) as (line & ->).
  destruct (getDeployedSecret _ _ _) as [deployedSecret [err|]].
  - simpl. by rewrite orb_false_r.
  - destruct (compareSecrets localSecret deployedSecret) as [differences|] eqn:Hcmp;
      [|done].
    destruct (reportDifferences_quiet localSecret differences flag)
      as (t & -> & Hq).
    cbn [tracks fst snd existsb yieldsDifferences callPanics]. rewrite Hcmp.
    rewrite quiet_no_differences, quiet_no_panics by done.
    destruct differences; simpl; by rewrite ?orb_false_r, ?orb_true_r.
Qed.

Lemma processFile_tracks W file flag : tracks (processFile W file flag) flag.
Proof.
  unfold processFile.
  destruct (logf_run ("Processing file: " +:+ filepath_Base W file +:+ NL))
    as (line & ->).
  apply tracks_bind_quiet; [by repeat constructor|]. intros _.
  pose proof (parseYAMLSecrets_logs W file) as Hlogs.
  apply tracks_bind_quiet.
  { apply emits_inv in Hlogs as (t & a & -> & Ht). simpl.
    eapply Forall_impl; [exact Ht|]. apply isLog_quiet. }
  intros [localSecrets|err].
  - apply tracks_forEach. apply processSecret_tracks.
  - destruct (logf_run ("Error parsing YAML file '" +:+ filepath_Base W file
                        +:+ "': " +:+ err +:+ NL)) as (line' & ->).
    rewrite bind_Normal. simpl. by rewrite orb_false_r.
Qed.

(** What a finished loop over the files says about its trace. *)
Lemma loop_verdict W files trace flag :
  forEach (processFile W) files false = (trace, Normal flag) →
  (flag = true ↔
     ∃ local deployed differences,
       CallCompare local deployed ∈ trace
       ∧ compareSecrets local deployed = Normal differences
       ∧ differences ≠ [])
  ∧ (∀ local deployed, CallCompare local deployed ∈ trace →
       ∃ differences, compareSecrets local deployed = Normal differences).
Proof.
  intros Hrun.
  pose proof (tracks_forEach (processFile W) files false (processFile_tracks W)) as Ht.
  rewrite Hrun in Ht. simpl in Ht. destruct Ht as [-> Hpanics]. split.
  - rewrite existsb_exists. split.
    + intros ([| |local deployed] & Hin & Hy); simpl in Hy; try done.
      destruct (compareSecrets local deployed) as [[|diff differences]|] eqn:Hcmp;
        try done.
      exists local, deployed, (diff :: differences).
      split_and!; [by apply list_elem_of_In|done..].
    + intros (local & deployed & differences & Hin & Hcmp & Hne).
      exists (CallCompare local deployed). split; [by apply list_elem_of_In|].
      simpl. rewrite Hcmp. by destruct differences.
  - intros local deployed Hin.
    destruct (compareSecrets local deployed) as [differences|] eqn:Hcmp; [eauto|].
    exfalso. apply not_true_iff_false in Hpanics. apply Hpanics.
    apply existsb_exists. exists (CallCompare local deployed).
    split; [by apply list_elem_of_In|]. simpl. by rewrite Hcmp.
Qed.

(** The verdict never goes back: a loop that starts with the verdict set
    ends with it set. *)
Lemma forEach_processFile_monotone W files trace flag :
  forEach (processFile W) files true = (trace, Normal flag) → flag = true.
Proof.
  intros Hrun.
  pose proof (tracks_forEach (processFile W) files true (processFile_tracks W)) as Ht.
  rewrite Hrun in Ht. by destruct Ht as [-> _].
Qed.

Lemma forEach_processSecret_monotone W secrets trace flag :
  forEach (processSecret W) secrets true = (trace, Normal flag) → flag = true.
Proof.
  intros Hrun.
  pose proof (tracks_forEach (processSecret W) secrets true (processSecret_tracks W))
    as Ht.
  rewrite Hrun in Ht. by destruct Ht as [-> _].
Qed.

(** The only panic of the program is the one on a resource that is not
    deployed: in a world whose cluster never answers "not found", no step
    panics and [main] does not crash. *)
Lemma forEach_finishes {A S} (body : A → S → Run S) (l : list A) (s : S) :
  (∀ a s, ∃ t s', body a s = (t, Normal s')) →
  ∃ t s', forEach body l s = (t, Normal s').
Proof.
  intros Hbody. revert s. induction l as [|a l IH]; intros s; cbn [forEach].
  - by eexists [], s.
  - destruct (Hbody a s) as (t & s' & ->). rewrite bind_Normal.
    destruct (IH s') as (t' & s'' & ->). by eexists _, _.
Qed.

Lemma processSecret_finishes W localSecret flag :
  neverAbsent W → ∃ t flag', processSecret W localSecret flag = (t, Normal flag').
Proof.
  intros Hpresent.
  destruct (processSecret_run W localSecret flag) as (line & ->).
  unfold getDeployedSecret.
  destruct (clusterGet W _ _) as [secret|err] eqn:Hget.
  - rewrite compareSecrets_Normal.
    match goal with
    | |- context [reportDifferences ?s ?d ?f] =>
        destruct (reportDifferences_quiet s d f) as (t & -> & _)
    end.
    by eexists _, _.
  - rewrite (Hpresent _ _ _ Hget). by eexists _, _.
Qed.

Lemma processFile_finishes W file flag :
  neverAbsent W → ∃ t flag', processFile W file flag = (t, Normal flag').
Proof.
  intros Hpresent. unfold processFile.
  destruct (logf_run ("Processing file: " +:+ filepath_Base W file +:+ NL))
    as (line & ->).
  rewrite bind_Normal.
  destruct (emits_inv _ _ (parseYAMLSecrets_logs W file)) as (t & parsed & -> & _).
  rewrite bind_Normal. cbn [fst snd].
  destruct parsed as [localSecrets|err].
  - destruct (forEach_finishes (processSecret W) localSecrets flag)
      as (t' & flag' & ->); [|by eexists _, _].
    intros localSecret flag0. by apply processSecret_finishes.
  - destruct (logf_run ("Error parsing YAML file '" +:+ filepath_Base W file
                        +:+ "': " +:+ err +:+ NL)) as (line' & ->).
    rewrite bind_Normal. by eexists _, _.
Qed.

Lemma main_does_not_crash W dir pattern :
  neverAbsent W → (main W dir pattern).2 ≠ Crashed.
Proof.
  intros Hpresent. unfold main.
  destruct (clientError W); [done|].
  destruct (globAll W (parsePatterns W pattern dir) []) as [files|[p err]]; [|done].
  case_decide; [done|].
  destruct (forEach_finishes (processFile W) files false) as (t & flag & ->).
  { intros file flag. by apply processFile_finishes. }
  by destruct flag.
Qed.

(** The ways [main] can end, with the trace of each. *)
Lemma main_cases W dir pattern :
  match main W dir pattern with
  | (trace, Fatal) =>
      (is_Some (clientError W)
       ∨ ∃ failure, globAll W (parsePatterns W pattern dir) [] = inr failure)
      ∧ ∃ line, trace = [LogLine line]
  | (trace, Returned) =>
      clientError W = None
      ∧ globAll W (parsePatterns W pattern dir) [] = inl []
      ∧ ∃ line, trace = [LogLine line]
  | (trace, Crashed) =>
      ∃ files, clientError W = None
        ∧ globAll W (parsePatterns W pattern dir) [] = inl files
        ∧ forEach (processFile W) files false = (trace, Panic)
  | (trace, Exited code) =>
      ∃ files loopTrace flag,
        clientError W = None
        ∧ globAll W (parsePatterns W pattern dir) [] = inl files
        ∧ files ≠ []
        ∧ forEach (processFile W) files false = (loopTrace, Normal flag)
        ∧ code = (if flag then 1 else 0)%Z
        ∧ trace = loopTrace
                  ++ [Stdout ((if flag then summaryDifferences else summaryMatch)
                              +:+ NL)]
  end.
Proof.
  unfold main.
  destruct (clientError W) as [err|]; [by eauto|].
  destruct (globAll W (parsePatterns W pattern dir) []) as [files|[p err]];
    [|by eauto].
  destruct (decide (length files = 0)) as [Hlen|Hlen].
  { destruct files; [|done]. by eauto. }
  destruct (forEach (processFile W) files false) as [loopTrace [flag|]] eqn:Hloop;
    [|by eauto].
  assert (files ≠ []) by (by destruct files).
  destruct flag; eexists files, loopTrace, _; by split_and!.
Qed.

(** ** C6: the admission policy of the loader *)






(** ** C1: a resource that is not deployed *)

(** When the cluster answers "not found", [getDeployedSecret] returns a nil
    pointer and a nil error, [main] takes the nil error for success and calls
    [compareSecrets] with the nil pointer, which panics. *)
Lemma processSecret_absent W localSecret flag err :
  clusterGet W (Namespace (metadata localSecret)) (Name (metadata localSecret))
    = inr err →
  IsNotFound err = true →
  ∃ line,
    processSecret W localSecret flag
    = ([LogLine line; CallCompare localSecret None], Panic).
Proof.
  intros Hget Hnf.
  destruct (processSecret_run W localSecret flag) as (line & ->).
  exists line. unfold getDeployedSecret. by rewrite Hget, Hnf.
Qed.

(** C1 at a concrete run: the file holds [exampleAbsent], whose deployed
    counterpart the cluster reports as not found, and then
    [exampleMatching], which is deployed with equal data.  The run calls
    [compareSecrets] on the absent resource with a nil pointer and crashes
    with exit status 2; the next resource is never compared and no summary
    is printed. *)
Theorem absent_resource_crashes :
  ∃ trace,
    main (exampleWorld [Document exampleAbsent; Document exampleMatching])
         defaultDir defaultPattern
      = (trace, Crashed)
    ∧ exitStatus Crashed = 2%Z
    ∧ last trace = Some (CallCompare exampleAbsent None)
    ∧ compareSecrets exampleAbsent None = Panic
    ∧ ∀ deployed, CallCompare exampleMatching deployed ∉ trace.
Proof.
  destruct (main _ _ _) as [trace t] eqn:Hmain.
  vm_compute in Hmain. injection Hmain as <- <-.
  eexists. split; [reflexivity|]. split_and!; [done..|].
  intros deployed. rewrite !elem_of_cons, elem_of_nil.
  intros [?|[?|[?|[]]]]; discriminate.
Qed.

(** ** C3: the verdict *)

(** C3, as the code has it.  In the loop over the files (and in the loop
    over the secrets of a file) a verdict that is set stays set.  For every
    run of [main] that ends by its [return] or by the [os.Exit] after the
    loop: the exit status is 1 exactly when some call of [compareSecrets] of
    the run returned a non-empty sequence, whatever came before or after it,
    and 0 exactly when every call returned the empty sequence.  When no file
    matches, [main] returns after one log line, with exit status 0.  A run
    that [log.Fatalf] aborts, because the cluster client cannot be created or
    a pattern is malformed, exits with status 1 as well, before any resource
    is processed. *)
Theorem verdict_monotone (W : World) :
  (∀ files trace flag,
     forEach (processFile W) files true = (trace, Normal flag) → flag = true)
  ∧ (∀ secrets trace flag,
       forEach (processSecret W) secrets true = (trace, Normal flag) → flag = true)
  ∧ (∀ dir pattern trace t,
       main W dir pattern = (trace, t) → t ≠ Fatal → t ≠ Crashed →
       (exitStatus t = 1%Z ↔
          ∃ local deployed differences,
            CallCompare local deployed ∈ trace
            ∧ compareSecrets local deployed = Normal differences
            ∧ differences ≠ [])
       ∧ (exitStatus t = 0%Z ↔
            ∀ local deployed,
              CallCompare local deployed ∈ trace →
              compareSecrets local deployed = Normal []))
  ∧ (∀ dir pattern,
       clientError W = None →
       globAll W (parsePatterns W pattern dir) [] = inl [] →
       ∃ line, main W dir pattern = ([LogLine line], Returned)
               ∧ exitStatus Returned = 0%Z)
  ∧ (∀ dir pattern,
       (is_Some (clientError W)
        ∨ ∃ failure, globAll W (parsePatterns W pattern dir) [] = inr failure) →
       ∃ line, main W dir pattern = ([LogLine line], Fatal)
               ∧ exitStatus Fatal = 1%Z).
Proof.
  split_and!.
  - apply forEach_processFile_monotone.
  - apply forEach_processSecret_monotone.
  - intros dir pattern trace t Hmain Hfatal Hcrash.
    pose proof (main_cases W dir pattern) as Hcases. rewrite Hmain in Hcases.
    destruct t as [| |code|]; [done| | |done].
    + destruct Hcases as (_ & _ & line & ->). simpl. split.
      * split; [done|].
        intros (? & ? & ? & Hin & _). apply list_elem_of_singleton in Hin. done.
      * split; [|done].
        intros _ ?? Hin. apply list_elem_of_singleton in Hin. done.
    + destruct Hcases as (files & loopTrace & flag & _ & _ & _ & Hloop & -> & ->).
      destruct (loop_verdict W files loopTrace flag Hloop) as [Hflag Hnormal].
      assert (∀ local deployed,
                CallCompare local deployed
                  ∈ loopTrace ++ [Stdout ((if flag then summaryDifferences
                                           else summaryMatch) +:+ NL)]
                ↔ CallCompare local deployed ∈ loopTrace) as Hcalls.
      { intros ??. rewrite elem_of_app, list_elem_of_singleton.
        split; [by intros [?|?]|by left]. }
      simpl. split.
      * setoid_rewrite Hcalls. rewrite <- Hflag. by destruct flag.
      * setoid_rewrite Hcalls. split.
        -- intros Hcode local deployed Hin.
           destruct (Hnormal _ _ Hin) as (differences & Hcmp).
           destruct differences as [|diff differences]; [done|].
           assert (flag = true) as -> by (apply Hflag; eauto 8).
           done.
        -- intros Hall. destruct flag; [|done].
           destruct (proj1 Hflag eq_refl)
             as (local & deployed & differences & Hin & Hcmp & Hne).
           rewrite (Hall _ _ Hin) in Hcmp. by simplify_eq.
  - intros dir pattern Hclient Hglob. unfold main. rewrite Hclient, Hglob.
    rewrite decide_True by done. eauto.
  - intros dir pattern Hsetup. unfold main.
    destruct (clientError W) as [err|]; [by eauto|].
    destruct Hsetup as [[? [=]]|([p err] & ->)]. by eauto.
Qed.

(** C3 as stated fails: when the cluster client cannot be created, no
    resource is processed, so every processed resource matched, and the exit
    status is 1, not 0. *)
Lemma verdict_fatal_setup :
  ∃ trace t,
    main exampleNoClient defaultDir defaultPattern = (trace, t)
    ∧ exitStatus t = 1%Z
    ∧ (∀ local deployed, CallCompare local deployed ∉ trace)
    ∧ ¬ (exitStatus t = 0%Z ↔
           ∀ local deployed,
             CallCompare local deployed ∈ trace →
             compareSecrets local deployed = Normal []).
Proof.
  destruct (main exampleNoClient defaultDir defaultPattern) as [trace t] eqn:Hmain.
  vm_compute in Hmain. injection Hmain as <- <-.
  eexists _, _. split; [reflexivity|].
  match goal with
  | |- _ ∧ (∀ local deployed, _ ∉ ?trace) ∧ _ =>
      assert (∀ local deployed, CallCompare local deployed ∉ trace) as Hnone
  end.
  { intros local deployed Hin. apply list_elem_of_singleton in Hin. done. }
  split; [reflexivity|]. split; [exact Hnone|].
  intros [_ Hzero]. discriminate Hzero.
  intros local deployed Hin. by apply Hnone in Hin.
Qed.

(** A run with differences first and a match after them: the first secret of
    the file differs from its deployed counterpart, the last one matches,
    and the exit status is 1. *)
Lemma verdict_monotone_example :
  ∃ trace,
    main (exampleWorld (Document <$> exampleDocs)) defaultDir defaultPattern
      = (trace, Exited 1)
    ∧ Exited 1 ≠ Fatal ∧ Exited 1 ≠ Crashed
    ∧ ∃ local deployed differences,
        CallCompare local deployed ∈ trace
        ∧ compareSecrets local deployed = Normal differences
        ∧ differences ≠ [].
Proof.
  destruct (main (exampleWorld (Document <$> exampleDocs)) defaultDir defaultPattern)
    as [trace t] eqn:Hmain.
  assert (t = Exited 1) as -> by (vm_compute in Hmain; congruence).
  exists trace. split; [reflexivity|]. split; [discriminate|]. split; [discriminate|].
  destruct (verdict_monotone (exampleWorld (Document <$> exampleDocs)))
    as (_ & _ & Hverdict & _).
  apply (Hverdict defaultDir defaultPattern trace (Exited 1) Hmain);
    [discriminate|discriminate|reflexivity].
Defined.

(** ** C7: the summary line *)




(** ** C8: the default pattern *)

Section match_facts.

Implicit Types (pattern name : string) (c a : ascii).

Lemma matches_nil name :
  GoPath.matches EmptyString name = true ↔ name = EmptyString.
Proof. simpl. by rewrite bool_decide_eq_true. Qed.

Lemma matches_star_unfold pattern name :
  GoPath.matches (String "*" pattern) name
  = GoPath.matches pattern name
    || match name with
       | EmptyString => false
       | String a name' =>
           if decide (a = GoPath.Separator) then false
           else GoPath.matches (String "*" pattern) name'
       end.
Proof. by destruct name. Qed.

(** A star takes a run of bytes without the separator. *)
Lemma matches_star pattern name :
  GoPath.matches (String "*" pattern) name = true ↔
    ∃ run rest, name = run +:+ rest
                ∧ (GoPath.Separator ∉ bytes run)
                ∧ GoPath.matches pattern rest = true.
Proof.
  induction name as [|a name IH]; rewrite matches_star_unfold.
  - rewrite orb_false_r. split.
    + intros Hm. exists EmptyString, EmptyString. split_and!; [done| |done].
      unfold bytes; simpl. apply not_elem_of_nil.
    + intros (run & rest & Heq & _ & Hm).
      destruct run; [|done]. rewrite str_app_nil_l in Heq. by subst.
  - rewrite orb_true_iff. split.
    + intros [Hm|Hm].
      * exists EmptyString, (String a name). split_and!; [done| |done].
        unfold bytes; simpl. apply not_elem_of_nil.
      * destruct (decide (a = GoPath.Separator)) as [|Hne]; [done|].
        apply IH in Hm as (run & rest & -> & Hfree & Hm).
        exists (String a run), rest. split_and!; [done| |done].
        unfold bytes in *; simpl. rewrite not_elem_of_cons. by split.
    + intros (run & rest & Heq & Hfree & Hm).
      destruct run as [|a' run].
      * rewrite str_app_nil_l in Heq. subst. by left.
      * rewrite str_app_cons in Heq. injection Heq as <- ->.
        unfold bytes in Hfree; simpl in Hfree.
        rewrite not_elem_of_cons in Hfree. destruct Hfree as [Hne Hfree].
        right. rewrite decide_False by done. apply IH. eauto.
Qed.

(** A byte other than the two wildcards takes itself. *)
Lemma matches_byte c pattern name :
  c ≠ "*"%char → c ≠ "?"%char →
  GoPath.matches (String c pattern) name = true ↔
    ∃ rest, name = String c rest ∧ GoPath.matches pattern rest = true.
Proof.
  intros Hstar Hany. cbn [GoPath.matches].
  rewrite decide_False by done.
  destruct name as [|a name]; [split; [done|by intros (? & ? & _)]|].
  rewrite decide_False by done.
  destruct (decide (a = c)) as [->|Hne].
  - split; [eauto|]. by intros (rest & [= ->] & Hm).
  - split; [done|]. by intros (rest & [= -> ->] & _).
Qed.

Lemma matches_text text pattern name :
  "*"%char ∉ bytes text → "?"%char ∉ bytes text →
  GoPath.matches (text +:+ pattern) name = true ↔
    ∃ rest, name = text +:+ rest ∧ GoPath.matches pattern rest = true.
Proof.
  revert name. induction text as [|c text IH]; intros name Hstar Hany.
  - rewrite str_app_nil_l. split; [eauto|]. by intros (rest & -> & Hm).
  - unfold bytes in Hstar, Hany; simpl in Hstar, Hany.
    rewrite not_elem_of_cons in Hstar, Hany.
    destruct Hstar as [Hc Hstar], Hany as [Hc' Hany].
    rewrite str_app_cons, matches_byte by done. split.
    + intros (rest & -> & (rest' & -> & Hm)%IH); [|done..]. eauto.
    + intros (rest & -> & Hm). eexists. split; [by rewrite str_app_cons|].
      apply IH; [done..|]. eauto.
Qed.

Lemma matches_exact text name :
  "*"%char ∉ bytes text → "?"%char ∉ bytes text →
  GoPath.matches text name = true ↔ name = text.
Proof.
  intros Hstar Hany. rewrite <- (str_app_nil_r text) at 1.
  rewrite matches_text by done. split.
  - intros (rest & -> & ->%matches_nil). by rewrite str_app_nil_r.
  - intros ->. exists EmptyString. by rewrite str_app_nil_r.
Qed.

(** The two patterns of the default value have the shape
    star, [secret], star, extension. *)
Lemma matches_secret extension name :
  "*"%char ∉ bytes extension → "?"%char ∉ bytes extension →
  GoPath.Separator ∉ bytes extension →
  GoPath.matches ("*secret*" +:+ extension) name = true ↔
    (GoPath.Separator ∉ bytes name)
    ∧ ∃ before after, name = before +:+ "secret" +:+ after +:+ extension.
Proof.
  intros Hstar Hany Hsep.
  change ("*secret*" +:+ extension)
    with (String "*" ("secret" +:+ String "*" extension)).
  rewrite matches_star. split.
  - intros (before & rest & -> & Hbefore & Hm).
    apply matches_text in Hm as (rest' & -> & Hm); [|by_evaluation..].
    apply matches_star in Hm as (after & rest & -> & Hafter & Hm).
    apply matches_exact in Hm as ->; [|done..]. split; [|eauto].
    rewrite !bytes_app, !not_elem_of_app. split_and!; [done| |done..].
    by_evaluation.
  - intros (Hfree & before & after & ->).
    rewrite !bytes_app, !not_elem_of_app in Hfree.
    destruct Hfree as (Hbefore & _ & Hafter & _).
    exists before, ("secret" +:+ after +:+ extension). split_and!; [done..|].
    apply matches_text; [by_evaluation..|]. eexists. split; [done|].
    apply matches_star. exists after, extension. split_and!; [done..|].
    by apply matches_exact.
Qed.

End match_facts.

Lemma parsePatterns_default W dir :
  parsePatterns W defaultPattern dir
  = [filepath_Join W dir "*secret*.yaml"; filepath_Join W dir "*secret*.yml"].
Proof. reflexivity. Qed.

(** C8, as the code has it.  The default value of [--pattern] is the
    comma-separated list of the two globs [*secret*.yaml] and
    [*secret*.yml], each joined to the directory by [parsePatterns]; a file
    name matches one of them exactly when it has no path separator, contains
    [secret], and ends in [.yaml] or [.yml] after it. *)
Theorem default_pattern_matches_secret :
  GoStrings.Split defaultPattern ","%char = ["*secret*.yaml"; "*secret*.yml"]
  ∧ (∀ W dir,
       parsePatterns W defaultPattern dir
       = [filepath_Join W dir "*secret*.yaml"; filepath_Join W dir "*secret*.yml"])
  ∧ ∀ name,
      (GoPath.Match "*secret*.yaml" name = Some true
       ∨ GoPath.Match "*secret*.yml" name = Some true)
      ↔ (GoPath.Separator ∉ bytes name)
        ∧ ∃ before after,
            name = before +:+ "secret" +:+ after +:+ ".yaml"
            ∨ name = before +:+ "secret" +:+ after +:+ ".yml".
Proof.
  split; [reflexivity|]. split; [apply parsePatterns_default|].
  intros name. unfold GoPath.Match.
  change (GoPath.inFragment "*secret*.yaml") with true.
  change (GoPath.inFragment "*secret*.yml") with true. cbn match.
  assert (∀ b, Some b = Some true ↔ b = true) as Hsome
    by (intros b; split; congruence).
  rewrite !Hsome.
  change "*secret*.yaml" with ("*secret*" +:+ ".yaml").
  change "*secret*.yml" with ("*secret*" +:+ ".yml").
  rewrite !matches_secret by by_evaluation. split.
  - intros [[Hfree (before & after & ->)]|[Hfree (before & after & ->)]]; eauto 6.
  - intros [Hfree (before & after & [-> | ->])]; eauto 6.
Qed.

(** C8 as stated fails: this file name contains [config] and has the
    extension [.yaml], and neither glob of the default value matches it. *)
Lemma default_pattern_misses_config :
  (∃ before after, "app-config.yaml" = before +:+ "config" +:+ after)
  ∧ (∃ stem, "app-config.yaml" = stem +:+ ".yaml")
  ∧ GoStrings.Split defaultPattern ","%char = ["*secret*.yaml"; "*secret*.yml"]
  ∧ GoPath.Match "*secret*.yaml" "app-config.yaml" = Some false
  ∧ GoPath.Match "*secret*.yml" "app-config.yaml" = Some false.
Proof.
  split_and!; [|by exists "app-config"|reflexivity..].
  by exists "app-", ".yaml".
Qed.

(** * Further properties *)

(** ** More on [compareSecrets] *)

Lemma keysSet_elem (localData deployedData : gmap string string) key :
  key ∈ elements (dom deployedData ∪ (dom localData ∪ ∅)) ↔
    is_Some (localData !! key) ∨ is_Some (deployedData !! key).
Proof. rewrite elem_of_elements, !elem_of_union, !elem_of_dom. set_solver. Qed.

(** X1.  [compareSecrets] returns the empty sequence exactly when the two
    maps are equal: the report "All secrets match" is never printed for maps
    that differ, and always for equal ones. *)
Theorem compareSecrets_empty_iff (local : KubernetesSecret) (deployed : DeployedSecret) :
  compareSecrets local (Some deployed) = Normal []
  ↔ StringData local = Data deployed.
Proof.
  rewrite compareSecrets_Normal. split.
  - intros [= Hnil]. rewrite compareKeys_filter in Hnil.
    apply fmap_nil_inv in Hnil. apply map_eq. intros key.
    destruct (decide (StringData local !! key = Data deployed !! key)) as [|Hne];
      [done|].
    exfalso. eapply (filter_nil_not_elem_of _ _ key Hnil Hne).
    apply keysSet_elem.
    destruct (StringData local !! key); [left; eauto|].
    destruct (Data deployed !! key); [right; eauto|done].
  - intros ->. by rewrite compareKeys_same.
Qed.

(** X2.  Comparing in the other direction mirrors the result: the same keys
    differ, with the two values of every entry exchanged, so an entry that is
    only local becomes only deployed and the other way round. *)
Theorem compareSecrets_swap (local : KubernetesSecret) (deployed : DeployedSecret)
    (apiVersion kind type name namespace : string) (meta : Metadata) :
  ∃ differences,
    compareSecrets local (Some deployed) = Normal differences
    ∧ compareSecrets
        {| APIVersion := apiVersion; Kind := kind; metadata := meta;
           secretType := type; StringData := Data deployed |}
        (Some {| deployedName := name; deployedNamespace := namespace;
                 Data := StringData local |})
      = Normal (swapSides <$> differences).
Proof.
  eexists. split; [apply compareSecrets_Normal|].
  rewrite compareSecrets_Normal. cbn [StringData Data]. f_equal.
  assert (dom (StringData local) ∪ (dom (Data deployed) ∪ ∅)
          = dom (Data deployed) ∪ (dom (StringData local) ∪ (∅ : gset string)))
    as -> by set_solver.
  rewrite !compareKeys_filter, <- list_fmap_compose.
  rewrite (list_filter_iff
             (λ key, Data deployed !! key ≠ StringData local !! key)
             (λ key, StringData local !! key ≠ Data deployed !! key))
    by (intros key; split; intros Hne Heq; by apply Hne).
  by apply list_fmap_ext.
Qed.

(** X3.  The order in which the loop visits the keys (Go leaves the order of
    a [range] over a map open) only changes the order of the result: for
    every enumeration of the key set, the loop gives a permutation of what
    [compareSecrets] returns in the model. *)
Theorem compareSecrets_any_order (local : KubernetesSecret) (deployed : DeployedSecret)
    (keys : list string) :
  keys ≡ₚ elements (dom (StringData local) ∪ dom (Data deployed)) →
  ∃ differences,
    compareSecrets local (Some deployed) = Normal differences
    ∧ compareKeys (StringData local) (Data deployed) keys ≡ₚ differences.
Proof.
  intros Hkeys. eexists. split; [apply compareSecrets_Normal|].
  apply compareKeys_Permutation. rewrite Hkeys.
  assert (dom (StringData local) ∪ dom (Data deployed)
          = dom (Data deployed) ∪ (dom (StringData local) ∪ (∅ : gset string)))
    as -> by set_solver.
  done.
Qed.

Lemma compareSecrets_any_order_example :
  ["D"; "C"; "B"; "A"]
    ≡ₚ elements (dom (StringData exampleLocal) ∪ dom (Data exampleDeployed))
  ∧ ∃ differences,
      compareSecrets exampleLocal (Some exampleDeployed) = Normal differences
      ∧ compareKeys (StringData exampleLocal) (Data exampleDeployed)
          ["D"; "C"; "B"; "A"] ≡ₚ differences.
Proof.
  assert (["D"; "C"; "B"; "A"]
            ≡ₚ elements (dom (StringData exampleLocal) ∪ dom (Data exampleDeployed)))
    as Hkeys by by_evaluation.
  split; [exact Hkeys|].
  exact (compareSecrets_any_order exampleLocal exampleDeployed _ Hkeys).
Defined.

Lemma filter_Forall_id {A} (P : A → Prop) `{∀ x, Decision (P x)} (l : list A) :
  Forall P l → filter P l = l.
Proof.
  induction 1 as [|x l Hx _ IH]; [done|].
  by rewrite filter_cons, decide_True, IH.
Qed.

(** X4.  Against an empty deployed map (a deployed secret without data,
    which is not the same as an absent one) every local key is reported, once
    and as only local with its local value: the result has as many entries as
    the local map has keys. *)
Theorem compareSecrets_empty_deployed (local : KubernetesSecret)
    (name namespace : string) :
  ∃ differences,
    compareSecrets local
      (Some {| deployedName := name; deployedNamespace := namespace; Data := ∅ |})
      = Normal differences
    ∧ length differences = size (StringData local)
    ∧ NoDup (Key <$> differences)
    ∧ ∀ diff, diff ∈ differences ↔
        ∃ value, StringData local !! Key diff = Some value
                 ∧ Local diff = Some value ∧ Deployed diff = None.
Proof.
  eexists. split; [apply compareSecrets_Normal|]. cbn [Data].
  rewrite dom_empty_L.
  assert (∅ ∪ (dom (StringData local) ∪ ∅) = dom (StringData local)) as ->
    by set_solver.
  split_and!.
  - rewrite compareKeys_filter, length_fmap, filter_Forall_id.
    + by rewrite <- size_dom.
    + apply Forall_forall. intros key [value Hl]%elem_of_elements%elem_of_dom.
      by rewrite Hl, lookup_empty.
  - apply compareKeys_NoDup, NoDup_elements.
  - intros diff. rewrite compareKeys_elem, elem_of_elements, elem_of_dom.
    rewrite lookup_empty. split.
    + intros ([value Hl] & _ & HL & HD). exists value. by rewrite HL.
    + intros (value & Hl & HL & HD). rewrite Hl. by split_and!.
Qed.

(** ** More on [getDeployedSecret] *)

(** X5.  The three results of [getDeployedSecret]: a record and no error
    exactly when the cluster returns the secret; no record and an error,
    whose message is the client's message after [error fetching secret: ],
    exactly when the client fails with an error that is not "not found"; and
    neither a record nor an error exactly when the client answers "not
    found".  A record and an error never come together. *)
Theorem getDeployedSecret_results (W : World) (namespace name : string) :
  (is_Some (getDeployedSecret W namespace name).1
   ↔ ∃ secret, clusterGet W namespace name = inl secret)
  ∧ (∀ msg,
       (getDeployedSecret W namespace name).2 = Some msg
       ↔ ∃ err, clusterGet W namespace name = inr err
                ∧ IsNotFound err = false
                ∧ msg = "error fetching secret: " +:+ apiMessage err)
  ∧ (getDeployedSecret W namespace name = (None, None)
     ↔ ∃ err, clusterGet W namespace name = inr err ∧ IsNotFound err = true)
  ∧ ¬ (is_Some (getDeployedSecret W namespace name).1
       ∧ is_Some (getDeployedSecret W namespace name).2).
Proof.
  unfold getDeployedSecret.
  destruct (clusterGet W namespace name) as [secret|[notFound message]];
    [|destruct notFound]; cbn [fst snd IsNotFound apiMessage]; split_and!.
  - split; [by eauto|by eauto].
  - intros msg. split; [done|]. by intros (? & [=] & _).
  - split; [done|]. by intros (? & [=] & _).
  - by intros [_ [? [=]]].
  - split; [by intros [? [=]]|]. by intros (? & [=]).
  - intros msg. split; [done|]. by intros (? & [= <-] & [=] & _).
  - split; [by eauto|done].
  - by intros [[? [=]] _].
  - split; [by intros [? [=]]|]. by intros (? & [=]).
  - intros msg. split; [intros [= <-]; by eauto|].
    by intros (? & [= <-] & _ & ->).
  - split; [done|]. by intros (? & [= <-] & [=]).
  - by intros [[? [=]] _].
Qed.

(** X6.  For a key that the cluster object does not hold in [stringData]
    (the usual case: the cluster stores [data] only), the resolved value has
    exactly the bytes of the [data] entry, and the key is resolved exactly
    when [data] has it. *)
Theorem getDeployedSecret_keeps_bytes (W : World) (namespace name : string)
    (secret : ClusterSecret) :
  clusterGet W namespace name = inl secret →
  ∃ deployed,
    getDeployedSecret W namespace name = (Some deployed, None)
    ∧ ∀ key,
        clusterStringData secret !! key = None →
        String.list_byte_of_string <$> Data deployed !! key
        = clusterData secret !! key.
Proof.
  intros Hget. eexists. split; [by apply getDeployedSecret_found|].
  intros key Hnone. cbn [Data].
  rewrite lookup_union, Hnone, (left_id_L None (∪)), lookup_fmap.
  destruct (clusterData secret !! key) as [value|]; [|done]. simpl.
  by rewrite String.list_byte_of_string_of_list_byte.
Qed.

Lemma getDeployedSecret_keeps_bytes_example :
  clusterGet (exampleWorld []) "staging" "same" = inl exampleOverlap
  ∧ clusterStringData exampleOverlap !! "L" = None
  ∧ ∃ deployed,
      getDeployedSecret (exampleWorld []) "staging" "same" = (Some deployed, None)
      ∧ String.list_byte_of_string <$> Data deployed !! "L"
        = Some (String.list_byte_of_string "kept").
Proof.
  assert (clusterGet (exampleWorld []) "staging" "same" = inl exampleOverlap) as Hget
    by reflexivity.
  assert (clusterStringData exampleOverlap !! "L" = None) as Hnone
    by (vm_compute; reflexivity).
  split; [exact Hget|]. split; [exact Hnone|].
  destruct (getDeployedSecret_keeps_bytes (exampleWorld []) "staging" "same"
              exampleOverlap Hget) as (deployed & Hrun & Hbytes).
  exists deployed. split; [exact Hrun|].
  rewrite (Hbytes "L" Hnone). vm_compute. reflexivity.
Defined.

(** ** More on [formatYAMLValue] *)

Lemma removeLast_snoc (s : string) (c : ascii) :
  removeLast (s +:+ GoStrings.byte c) = s.
Proof.
  induction s as [|a s IH]; [done|].
  rewrite str_app_cons. cbn [removeLast]. rewrite IH.
  destruct s; reflexivity.
Qed.

Lemma escapeQuotes_head (v : string) (rest : string) :
  escapeQuotes v ≠ String GoStrings.dquote rest.
Proof.
  destruct v as [|a v]; [done|]. rewrite escapeQuotes_cons.
  case_decide; [done|]. congruence.
Qed.

Lemma escapeQuotes_nil (v : string) : escapeQuotes v = EmptyString → v = EmptyString.
Proof.
  destruct v as [|a v]; [done|]. rewrite escapeQuotes_cons. by case_decide.
Qed.

Lemma unescapeQuotes_keep (a : ascii) (s : string) :
  a ≠ GoStrings.backslash ∨ (∀ rest, s ≠ String GoStrings.dquote rest) →
  unescapeQuotes (String a s)
  = String a (match s with EmptyString => EmptyString | _ => unescapeQuotes s end).
Proof.
  intros Hkeep. cbn [unescapeQuotes]. destruct s as [|b s]; [done|].
  rewrite decide_False; [done|].
  intros [-> ->]. destruct Hkeep as [?|Hs]; [done|]. by eapply Hs.
Qed.

Lemma unescape_escape (v : string) : unescapeQuotes (escapeQuotes v) = v.
Proof.
  induction v as [|a v IH]; [done|]. rewrite escapeQuotes_cons.
  assert (unescapeQuotes (String a (escapeQuotes v)) = String a v) as Hkeep.
  { rewrite unescapeQuotes_keep by (right; intros rest; apply escapeQuotes_head).
    destruct (escapeQuotes v) eqn:E; [|by rewrite IH].
    by rewrite (escapeQuotes_nil v E). }
  case_decide as Ha; [subst a|done].
  cbn [unescapeQuotes]. rewrite decide_True by done. exact Hkeep.
Qed.

Lemma bytes_escapeQuotes (v : string) (c : ascii) :
  c ∈ bytes (escapeQuotes v) → c = GoStrings.backslash ∨ c ∈ bytes v.
Proof.
  induction v as [|a v IH]; [by intros ?%elem_of_nil|].
  rewrite escapeQuotes_cons. unfold bytes in *.
  case_decide; subst; simpl; rewrite !elem_of_cons; intuition auto.
Qed.

(** X7.  Formatting loses nothing: reading the formatted text back
    ([unformatYAMLValue]: remove the indentation of a block literal, or the
    enclosing quotes and the backslash before each quote) gives the value
    that was formatted, for every value. *)
Theorem formatYAMLValue_round_trip (v : string) :
  unformatYAMLValue (formatYAMLValue v) = v.
Proof.
  unfold formatYAMLValue.
  destruct (GoStrings.Contains v GoStrings.newline) eqn:Hnl.
  - rewrite foldl_snoc_map. cbn [app].
    change ("|-" +:+ GoStrings.byte GoStrings.newline +:+ ?s)
      with (String "|" (String "-" (String GoStrings.newline s))).
    cbn [unformatYAMLValue]. rewrite decide_True by done. cbn [dropBytes].
    change (String "032" (String "032" (String "032" (String "032" EmptyString))))
      with "    ".
    rewrite Split_Join.
    + rewrite <- list_fmap_compose.
      assert (∀ l : list string, (dropBytes 4 ∘ String.append "    ") <$> l = l)
        as Hid.
      { intros l. induction l as [|x l IH]; [done|]. rewrite fmap_cons, IH.
        reflexivity. }
      rewrite Hid. apply Join_Split.
    + pose proof (Split_not_nil v GoStrings.newline).
      by destruct (GoStrings.Split v GoStrings.newline).
    + apply Forall_fmap. eapply Forall_impl; [apply Split_pieces_free|].
      intros piece Hfree. cbn. rewrite bytes_app, not_elem_of_app.
      split; [by_evaluation|done].
  - rewrite ReplaceAll_escapeQuotes.
    change (GoStrings.byte GoStrings.dquote +:+ ?s)
      with (String GoStrings.dquote s).
    cbn [unformatYAMLValue]. rewrite decide_False by done.
    by rewrite removeLast_snoc, unescape_escape.
Qed.

(** X8.  A value without a newline is formatted on one line: the formatted
    text has no newline either, so an entry of a snippet takes one line
    unless it is a block literal. *)
Theorem formatYAMLValue_one_line (v : string) :
  GoStrings.newline ∉ bytes v →
  GoStrings.newline ∉ bytes (formatYAMLValue v).
Proof.
  intros Hfree. unfold formatYAMLValue.
  rewrite (proj2 (Contains_false v GoStrings.newline) Hfree).
  rewrite ReplaceAll_escapeQuotes, !bytes_app, !not_elem_of_app.
  split_and!; [by_evaluation| |by_evaluation].
  intros [?|?]%bytes_escapeQuotes; [discriminate|done].
Qed.

Lemma formatYAMLValue_one_line_example :
  (GoStrings.newline ∉ bytes "pass word")
  ∧ (GoStrings.newline ∉ bytes (formatYAMLValue "pass word")).
Proof.
  assert (GoStrings.newline ∉ bytes "pass word") as Hfree by by_evaluation.
  split; [exact Hfree|]. exact (formatYAMLValue_one_line "pass word" Hfree).
Defined.

(** ** More on the Reporter *)

Lemma reportDifference_block diff maps : (reportDifference diff maps).1 = blockOf diff.
Proof.
  destruct maps as [missingLocalKeys replaceLocalKeys].
  unfold reportDifference, blockOf, printf.
  destruct (Local diff), (Deployed diff); by rewrite ?bind_emit.
Qed.

Lemma reportLoop_blocks differences maps :
  (forEach reportDifference differences maps).1 = mjoin (blockOf <$> differences).
Proof.
  revert maps. induction differences as [|diff differences IH]; intros maps;
    cbn [forEach]; [done|].
  destruct maps as [m r].
  destruct (reportDifference_run diff m r) as (t & Hrun & _).
  pose proof (reportDifference_block diff (m, r)) as Hblock.
  rewrite Hrun in Hblock. cbn [fst] in Hblock. subst t.
  rewrite Hrun, bind_Normal. cbn [fst]. by rewrite IH.
Qed.

(** X9.  The report on a resource with differences, in full.  After the
    heading chunk come, for each entry of the sequence in turn, its label
    line ([DIFFERENT], [ONLY IN LOCAL] or [ONLY IN DEPLOYED]) with the key
    and the lines with its values; then the merge snippet of the deployed
    values of the DIFFERENT entries and the add snippet of those of the
    ONLY_IN_DEPLOYED entries, each absent when it has no entry and otherwise
    made of its heading, the opening fence, the label [stringData:], one
    line per entry in some order, the closing fence and an empty line.  The
    verdict flag is set. *)
Theorem report_lists_every_difference (localSecret : KubernetesSecret)
    (differences : list SecretDifference) (flag : bool) :
  differences ≠ [] →
  ∃ mergeLines addLines,
    mergeLines
      ≡ₚ snippetLine <$> map_to_list (foldl (storeStep DIFFERENT) ∅ differences)
    ∧ addLines
      ≡ₚ snippetLine
           <$> map_to_list (foldl (storeStep ONLY_IN_DEPLOYED) ∅ differences)
    ∧ reportDifferences localSecret differences flag
      = (Stdout ("=== " +:+ Name (metadata localSecret) +:+ " (Namespace: "
                 +:+ Namespace (metadata localSecret) +:+ ") ===" +:+ NL
                 +:+ "Differences found:" +:+ NL)
           :: mjoin (blockOf <$> differences)
           ++ snippetOf mergeHeading
                (foldl (storeStep DIFFERENT) ∅ differences) mergeLines
           ++ snippetOf addHeading
                (foldl (storeStep ONLY_IN_DEPLOYED) ∅ differences) addLines,
         Normal true).
Proof.
  intros Hne.
  destruct (reportLoop_run differences ∅ ∅) as (loopTrace & Hloop & _).
  pose proof (reportLoop_blocks differences (∅, ∅)) as Hblocks.
  rewrite Hloop in Hblocks. cbn [fst] in Hblocks. subst loopTrace.
  destruct (printSnippet_fenced mergeHeading
              (foldl (storeStep DIFFERENT) ∅ differences))
    as (mergeLines & Hmerge & Hmrun).
  destruct (printSnippet_fenced addHeading
              (foldl (storeStep ONLY_IN_DEPLOYED) ∅ differences))
    as (addLines & Hadd & Harun).
  exists mergeLines, addLines. split_and!; [done..|].
  by rewrite (reportDifferences_trace _ _ _ _ _ _ Hne Hloop), Hmrun, Harun.
Qed.

(** The report on the example: the three blocks, then the merge snippet
    for A and the add snippet for D, each with one entry. *)
Lemma report_lists_every_difference_example :
  exampleDifferences ≠ []
  ∧ reportDifferences exampleLocal exampleDifferences false
    = ([Stdout ("=== app (Namespace: staging) ===" +:+ NL
                +:+ "Differences found:" +:+ NL);
        Stdout (" - [DIFFERENT] A:" +:+ NL);
        Stdout ("   Local:     1" +:+ NL);
        Stdout ("   Deployed:  2" +:+ NL +:+ NL);
        Stdout (" - [ONLY IN LOCAL] B:" +:+ NL);
        Stdout ("   Value: x" +:+ NL +:+ NL);
        Stdout (" - [ONLY IN DEPLOYED] D:" +:+ NL);
        Stdout ("   Value: q" +:+ NL +:+ NL);
        Stdout (mergeHeading +:+ NL);
        Stdout ("```yaml" +:+ NL);
        Stdout ("stringData:" +:+ NL);
        Stdout ("  A: " +:+ GoStrings.byte GoStrings.dquote +:+ "2"
                +:+ GoStrings.byte GoStrings.dquote +:+ NL);
        Stdout ("```" +:+ NL);
        Stdout NL;
        Stdout (addHeading +:+ NL);
        Stdout ("```yaml" +:+ NL);
        Stdout ("stringData:" +:+ NL);
        Stdout ("  D: " +:+ GoStrings.byte GoStrings.dquote +:+ "q"
                +:+ GoStrings.byte GoStrings.dquote +:+ NL);
        Stdout ("```" +:+ NL);
        Stdout NL],
       Normal true).
Proof.
  assert (exampleDifferences ≠ []) as Hne by discriminate.
  split; [exact Hne|].
  destruct (report_lists_every_difference exampleLocal exampleDifferences false Hne)
    as (mergeLines & addLines & Hmerge & Hadd & ->).
  assert (snippetLine
            <$> map_to_list (foldl (storeStep DIFFERENT) ∅ exampleDifferences)
          = [snippetLine ("A", "2")]) as HA by (vm_compute; reflexivity).
  assert (snippetLine
            <$> map_to_list (foldl (storeStep ONLY_IN_DEPLOYED) ∅ exampleDifferences)
          = [snippetLine ("D", "q")]) as HD by (vm_compute; reflexivity).
  rewrite HA in Hmerge. rewrite HD in Hadd.
  apply Permutation_singleton_r in Hmerge as ->.
  apply Permutation_singleton_r in Hadd as ->.
  vm_compute. reflexivity.
Defined.

Lemma store_lookup class (differences : list SecretDifference) key value :
  NoDup (Key <$> differences) →
  foldl (storeStep class) ∅ differences !! key = Some value ↔
    ∃ diff, diff ∈ differences ∧ Key diff = key
            ∧ classify diff = Some class ∧ Deployed diff = Some value.
Proof.
  intros Hnd. split.
  - intros [Hempty|?]%store_sound; [|done]. by rewrite lookup_empty in Hempty.
  - intros (diff & Hin & <- & Hclass & Hvalue).
    apply store_complete; [done..|]. by apply selectClass_Some.
Qed.

(** The two maps that the report builds from a result of the comparison, in
    terms of the two maps compared. *)
Lemma accumulators_of_compare (localData deployedData : gmap string string) key value :
  let differences :=
    compareKeys localData deployedData
      (elements (dom deployedData ∪ (dom localData ∪ ∅))) in
  (foldl (storeStep DIFFERENT) ∅ differences !! key = Some value ↔
     deployedData !! key = Some value
     ∧ ∃ localVal, localData !! key = Some localVal ∧ localVal ≠ value)
  ∧ (foldl (storeStep ONLY_IN_DEPLOYED) ∅ differences !! key = Some value ↔
       deployedData !! key = Some value ∧ localData !! key = None).
Proof.
  intros differences.
  assert (NoDup (Key <$> differences)) as Hnd
    by apply compareKeys_NoDup, NoDup_elements.
  assert (∀ diff, diff ∈ differences ↔
            localData !! Key diff ≠ deployedData !! Key diff
            ∧ Local diff = localData !! Key diff
            ∧ Deployed diff = deployedData !! Key diff) as Hin.
  { intros diff. unfold differences. rewrite compareKeys_elem, keysSet_elem.
    split; [tauto|]. intros (Hne & ? & ?). split_and!; [|done..].
    destruct (localData !! Key diff); [left; eauto|].
    destruct (deployedData !! Key diff); [right; eauto|done]. }
  rewrite !store_lookup by done. unfold classify. split; split.
  - intros (diff & (Hne & HL & HD)%Hin & <- & Hclass & Hvalue).
    rewrite HL, HD in *.
    destruct (localData !! Key diff) as [localVal|],
             (deployedData !! Key diff); simplify_eq.
    split; [done|]. exists localVal. split; [done|]. congruence.
  - intros (Hd & localVal & Hl & Hne).
    exists (entryOf localData deployedData key). cbn.
    rewrite Hin. cbn. rewrite Hl, Hd. split_and!; [congruence|done..].
  - intros (diff & (Hne & HL & HD)%Hin & <- & Hclass & Hvalue).
    rewrite HL, HD in *.
    by destruct (localData !! Key diff), (deployedData !! Key diff); simplify_eq.
  - intros (Hd & Hl).
    exists (entryOf localData deployedData key). cbn.
    rewrite Hin. cbn. rewrite Hl, Hd. by split_and!.
Qed.

(** X10.  What the two suggestions amount to.  For the differences of a
    local and a deployed map, [replaceLocalKeys] holds exactly the deployed
    values of the keys that both maps have with unequal values, and
    [missingLocalKeys] exactly the deployed entries whose key the local map
    lacks; the two maps share no key; and putting both into the local map
    gives the deployed map extended by the keys that only the local map has:
    after following both suggestions every deployed key has its deployed
    value locally. *)
Theorem snippets_reconcile (local : KubernetesSecret) (deployed : DeployedSecret)
    (differences : list SecretDifference) (trace : list Event)
    (missingLocalKeys replaceLocalKeys : gmap string string) :
  compareSecrets local (Some deployed) = Normal differences →
  forEach reportDifference differences (∅, ∅)
    = (trace, Normal (missingLocalKeys, replaceLocalKeys)) →
  (∀ key value,
     replaceLocalKeys !! key = Some value ↔
       Data deployed !! key = Some value
       ∧ ∃ localVal, StringData local !! key = Some localVal ∧ localVal ≠ value)
  ∧ (∀ key value,
       missingLocalKeys !! key = Some value ↔
         Data deployed !! key = Some value ∧ StringData local !! key = None)
  ∧ replaceLocalKeys ##ₘ missingLocalKeys
  ∧ replaceLocalKeys ∪ missingLocalKeys ∪ StringData local
    = Data deployed ∪ StringData local.
Proof.
  rewrite compareSecrets_Normal. intros [= <-] Hloop.
  match type of Hloop with
  | forEach _ ?ds _ = _ =>
      destruct (reportLoop_run ds ∅ ∅) as (t & Hrun & _)
  end.
  rewrite Hrun in Hloop. injection Hloop as _ <- <-.
  assert (Hreplace := λ key value,
            proj1 (accumulators_of_compare (StringData local) (Data deployed)
                     key value)).
  assert (Hmissing := λ key value,
            proj2 (accumulators_of_compare (StringData local) (Data deployed)
                     key value)).
  cbv zeta in Hreplace, Hmissing.
  set (replace := foldl (storeStep DIFFERENT) ∅ _) in *.
  set (missing := foldl (storeStep ONLY_IN_DEPLOYED) ∅ _) in *.
  split; [exact Hreplace|]. split; [exact Hmissing|]. split.
  - apply map_disjoint_spec. intros key v1 v2 Hr Hm.
    apply Hreplace in Hr as (_ & localVal & Hl & _).
    apply Hmissing in Hm as (_ & Hl'). congruence.
  - apply map_eq. intros key. rewrite !lookup_union.
    destruct (replace !! key) as [v|] eqn:Hr.
    { apply Hreplace in Hr as (-> & _). by destruct (missing !! key). }
    destruct (missing !! key) as [v|] eqn:Hm.
    { apply Hmissing in Hm as (-> & _). done. }
    rewrite (left_id_L None (∪)).
    destruct (Data deployed !! key) as [value|] eqn:Hd; [|done].
    destruct (StringData local !! key) as [localVal|] eqn:Hl.
    + destruct (decide (localVal = value)) as [->|Hne]; [done|].
      assert (replace !! key = Some value) as Hr'; [|congruence].
      apply Hreplace. eauto.
    + assert (missing !! key = Some value) as Hm'; [|congruence].
      by apply Hmissing.
Qed.

Lemma snippets_reconcile_example :
  ∃ differences trace missingLocalKeys replaceLocalKeys,
    compareSecrets exampleLocal (Some exampleDeployed) = Normal differences
    ∧ forEach reportDifference differences (∅, ∅)
      = (trace, Normal (missingLocalKeys, replaceLocalKeys))
    ∧ replaceLocalKeys ∪ missingLocalKeys ∪ StringData exampleLocal
      = Data exampleDeployed ∪ StringData exampleLocal.
Proof.
  destruct (compareSecrets exampleLocal (Some exampleDeployed))
    as [differences|] eqn:Hcmp; [|vm_compute in Hcmp; discriminate].
  destruct (forEach reportDifference differences (∅, ∅))
    as [trace [[missingLocalKeys replaceLocalKeys]|]] eqn:Hloop.
  - exists differences, trace, missingLocalKeys, replaceLocalKeys.
    split; [reflexivity|]. split; [exact Hloop|].
    exact (proj2 (proj2 (proj2 (snippets_reconcile exampleLocal exampleDeployed
                                  differences trace missingLocalKeys
                                  replaceLocalKeys Hcmp Hloop)))).
  - exfalso. destruct (reportLoop_run differences ∅ ∅) as (t & Hrun & _).
    rewrite Hrun in Hloop. discriminate.
Defined.

Lemma snippet_has_line heading (keys : gmap string string) key value :
  keys !! key = Some value →
  snippetLine (key, value) ∈ (printSnippet heading keys).1.
Proof.
  intros Hkey. rewrite printSnippet_run. cbn [fst].
  rewrite decide_False by (intros ->; by rewrite lookup_empty in Hkey).
  rewrite !elem_of_cons, elem_of_app. do 3 right. left.
  apply list_elem_of_fmap. exists (key, value). split; [done|].
  by apply elem_of_map_to_list.
Qed.

(** X11.  Every deployed entry that the local map lacks or holds with
    another value is offered for copying: the report on the differences of
    the two maps contains the snippet line of that key with the deployed
    value as [formatYAMLValue] renders it. *)
Theorem report_offers_deployed_value (local : KubernetesSecret)
    (deployed : DeployedSecret) (differences : list SecretDifference)
    (flag : bool) (key value : string) :
  compareSecrets local (Some deployed) = Normal differences →
  Data deployed !! key = Some value →
  StringData local !! key ≠ Some value →
  Stdout ("  " +:+ key +:+ ": " +:+ formatYAMLValue value +:+ NL)
    ∈ (reportDifferences local differences flag).1.
Proof.
  rewrite compareSecrets_Normal. intros [= <-] Hd Hl.
  destruct (accumulators_of_compare (StringData local) (Data deployed) key value)
    as [Hreplace Hmissing].
  cbv zeta in Hreplace, Hmissing.
  set (differences := compareKeys _ _ _) in *.
  assert (foldl (storeStep DIFFERENT) ∅ differences !! key = Some value
          ∨ foldl (storeStep ONLY_IN_DEPLOYED) ∅ differences !! key = Some value)
    as Hstored.
  { destruct (StringData local !! key) as [localVal|] eqn:Hlocal.
    - left. apply Hreplace. split; [done|]. exists localVal. split; [done|].
      congruence.
    - right. by apply Hmissing. }
  destruct (reportDifferences_run local differences flag)
    as (header & loopTrace & _ & _ & ->). cbn [fst].
  rewrite decide_False.
  2:{ intros Hnil. rewrite Hnil in Hstored. cbn in Hstored.
      rewrite lookup_empty in Hstored. by destruct Hstored. }
  rewrite elem_of_cons, !elem_of_app. right.
  destruct Hstored as [Hr|Hm].
  - right; left. by apply (snippet_has_line mergeHeading _ key value).
  - right; right. by apply (snippet_has_line addHeading _ key value).
Qed.

Lemma report_offers_deployed_value_example :
  ∃ differences,
    compareSecrets exampleLocal (Some exampleDeployed) = Normal differences
    ∧ Data exampleDeployed !! "D" = Some "q"
    ∧ StringData exampleLocal !! "D" ≠ Some "q"
    ∧ Stdout ("  D: " +:+ formatYAMLValue "q" +:+ NL)
        ∈ (reportDifferences exampleLocal differences false).1.
Proof.
  destruct (compareSecrets exampleLocal (Some exampleDeployed))
    as [differences|] eqn:Hcmp; [|vm_compute in Hcmp; discriminate].
  assert (Data exampleDeployed !! "D" = Some "q") as Hd by (vm_compute; reflexivity).
  assert (StringData exampleLocal !! "D" ≠ Some "q") as Hl
    by (vm_compute; discriminate).
  exists differences. split; [reflexivity|]. split; [exact Hd|]. split; [exact Hl|].
  exact (report_offers_deployed_value exampleLocal exampleDeployed differences
           false "D" "q" Hcmp Hd Hl).
Defined.

(** ** More on the main loop *)

(** X12.  A fetch that fails with an error other than "not found" is logged
    and the resource is skipped: after the two log lines nothing is compared
    or printed for it, and the verdict is as before. *)
Theorem fetch_error_is_skipped (W : World) (localSecret : KubernetesSecret)
    (flag : bool) (err : ApiError) :
  clusterGet W (Namespace (metadata localSecret)) (Name (metadata localSecret))
    = inr err →
  IsNotFound err = false →
  processSecret W localSecret flag
  = ([LogLine ("Comparing Secret: " +:+ Name (metadata localSecret)
               +:+ " in Namespace: " +:+ Namespace (metadata localSecret)
               +:+ " . . . " +:+ NL);
      LogLine ("Error retrieving deployed secret '" +:+ Name (metadata localSecret)
               +:+ "' in namespace '" +:+ Namespace (metadata localSecret)
               +:+ "': " +:+ "error fetching secret: " +:+ apiMessage err +:+ NL)],
     Normal flag).
Proof.
  intros Hget Hnf. unfold processSecret, getDeployedSecret.
  rewrite Hget, Hnf.
  rewrite !logf_line by (repeat apply endsWithNewline_app; reflexivity).
  by rewrite !bind_emit.
Qed.

Lemma fetch_error_is_skipped_example :
  clusterGet (exampleWorld []) "staging" "denied"
    = inr {| IsNotFound := false; apiMessage := "forbidden" |}
  ∧ processSecret (exampleWorld []) exampleDenied true
    = ([LogLine ("Comparing Secret: denied in Namespace: staging . . . " +:+ NL);
        LogLine ("Error retrieving deployed secret 'denied' in namespace 'staging': "
                 +:+ "error fetching secret: forbidden" +:+ NL)],
       Normal true).
Proof.
  assert (clusterGet (exampleWorld []) "staging" "denied"
          = inr {| IsNotFound := false; apiMessage := "forbidden" |}) as Hget
    by reflexivity.
  split; [exact Hget|].
  exact (fetch_error_is_skipped (exampleWorld []) exampleDenied true _ Hget eq_refl).
Defined.

(** X13.  A file that cannot be used is skipped as a whole: when it cannot
    be read, or when one of its documents cannot be decoded, [main] logs
    [Error parsing YAML file] with the cause, compares none of its secrets
    (also not the valid ones that stand before the undecodable document) and
    leaves the verdict as it was. *)
Theorem unusable_file_is_skipped (W : World) (file : string) (flag : bool) :
  (∀ err,
     fileContent W file = Unreadable err →
     processFile W file flag
     = ([LogLine ("Processing file: " +:+ filepath_Base W file +:+ NL);
         LogLine ("Error parsing YAML file '" +:+ filepath_Base W file +:+ "': "
                  +:+ "error reading file: " +:+ err +:+ NL)],
        Normal flag))
  ∧ (∀ (docs : list KubernetesSecret) err rest,
       fileContent W file = Documents ((Document <$> docs) ++ Malformed err :: rest) →
       ∃ logs,
         processFile W file flag
         = (LogLine ("Processing file: " +:+ filepath_Base W file +:+ NL)
              :: logs
              ++ [LogLine ("Error parsing YAML file '" +:+ filepath_Base W file
                           +:+ "': " +:+ "error unmarshaling YAML: " +:+ err +:+ NL)],
            Normal flag)
         ∧ Forall isLog logs
         ∧ length logs = length (filter rejected docs)).
Proof.
  split.
  - intros err Hcontent. unfold processFile, parseYAMLSecrets.
    rewrite Hcontent, ret_bind.
    rewrite !logf_line by (repeat apply endsWithNewline_app; reflexivity).
    by rewrite !bind_emit.
  - intros docs err rest Hcontent. unfold processFile, parseYAMLSecrets.
    rewrite Hcontent.
    destruct (decodeLoop_malformed W file docs err rest [])
      as (logs & -> & Hlogs & Hlen).
    exists logs. split; [|done].
    rewrite logf_line by (repeat apply endsWithNewline_app; reflexivity).
    rewrite bind_emit, bind_Normal. cbn beta iota.
    rewrite logf_line by (repeat apply endsWithNewline_app; reflexivity).
    by rewrite bind_emit.
Qed.

Lemma unusable_file_is_skipped_example :
  fileContent (exampleWorld exampleBrokenDocs) "./app-secret.yaml"
    = Documents ((Document <$> [exampleLocal; exampleConfigMap])
                 ++ Malformed "yaml: line 7: mapping values are not allowed in this context"
                      :: [Document exampleMatching])
  ∧ ∃ trace,
      processFile (exampleWorld exampleBrokenDocs) "./app-secret.yaml" false
        = (trace, Normal false)
      ∧ length trace = 3.
Proof.
  split; [reflexivity|].
  destruct (proj2 (unusable_file_is_skipped (exampleWorld exampleBrokenDocs)
                     "./app-secret.yaml" false)
              [exampleLocal; exampleConfigMap] _ [Document exampleMatching] eq_refl)
    as (logs & Hrun & _ & Hlen).
  eexists. split; [exact Hrun|].
  cbn [length]. rewrite length_app, Hlen. vm_compute. reflexivity.
Defined.

Section trace_facts.

Context (P : Event → Prop).

Lemma trace_bind {A B} (m : Run A) (k : A → Run B) :
  Forall P m.1 → (∀ a, Forall P (k a).1) → Forall P (m ≫= k).1.
Proof.
  destruct m as [t [a|]]; cbn [fst]; intros Hm Hk; [|done].
  rewrite bind_Normal. cbn [fst]. by apply Forall_app.
Qed.

Lemma trace_forEach {A S} (body : A → S → Run S) (l : list A) (s : S) :
  (∀ a, a ∈ l → ∀ s, Forall P (body a s).1) → Forall P (forEach body l s).1.
Proof.
  revert s. induction l as [|a l IH]; intros s Hbody; cbn [forEach].
  - constructor.
  - apply trace_bind; [apply Hbody; by left|].
    intros s'. apply IH. intros a' Hin. apply Hbody. by right.
Qed.

End trace_facts.

Lemma decodeLoop_valid W filePath docs secrets accepted :
  Forall (λ secret, ¬ rejected secret) secrets →
  (decodeLoop W filePath docs secrets).2 = Normal (inl accepted) →
  Forall (λ secret, ¬ rejected secret) accepted.
Proof.
  revert secrets. induction docs as [|[secret|err] docs IH]; intros secrets Hvalid.
  - by intros [= <-].
  - destruct (decodeLoop_step W filePath secret docs secrets) as (line & ->).
    destruct (decide (rejected secret)) as [Hr|Hr].
    + destruct (logf_run line) as (text & ->). rewrite bind_Normal. cbn [snd].
      by apply IH.
    + apply IH. apply Forall_app. split; [done|]. by constructor.
  - done.
Qed.

Lemma processSecret_calls W localSecret flag :
  ¬ rejected localSecret →
  Forall (wellFormedCall W) (processSecret W localSecret flag).1.
Proof.
  intros Hvalid. destruct (processSecret_run W localSecret flag) as (line & ->).
  destruct (getDeployedSecret W _ _) as [deployedSecret [err|]] eqn:Hfetch.
  - by repeat constructor.
  - assert (wellFormedCall W (CallCompare localSecret deployedSecret)) as Hcall
      by done.
    destruct (compareSecrets localSecret deployedSecret) as [differences|];
      [|by repeat constructor].
    destruct (reportDifferences_quiet localSecret differences flag)
      as (t & -> & Hquiet).
    cbn [fst]. repeat (constructor; [done|]).
    eapply Forall_impl; [exact Hquiet|]. by intros [].
Qed.

Lemma parseYAMLSecrets_valid W file logs accepted :
  parseYAMLSecrets W file = (logs, Normal (inl accepted)) →
  Forall (λ secret, ¬ rejected secret) accepted.
Proof.
  unfold parseYAMLSecrets. destruct (fileContent W file) as [err|docs]; [done|].
  intros Hrun. apply (decodeLoop_valid W file docs [] accepted); [done|].
  by rewrite Hrun.
Qed.

Lemma processFile_calls W file flag :
  Forall (wellFormedCall W) (processFile W file flag).1.
Proof.
  unfold processFile.
  destruct (logf_run ("Processing file: " +:+ filepath_Base W file +:+ NL))
    as (line & ->).
  rewrite bind_Normal. cbn [fst]. constructor; [done|].
  destruct (emits_inv _ _ (parseYAMLSecrets_logs W file))
    as (logs & parsed & Hparse & Hlogs).
  rewrite Hparse, bind_Normal. cbn [fst]. apply Forall_app. split.
  { eapply Forall_impl; [exact Hlogs|]. by intros e [text ->]. }
  destruct parsed as [localSecrets|err].
  - apply trace_forEach. intros localSecret Hin flag'.
    apply processSecret_calls.
    pose proof (parseYAMLSecrets_valid W file logs localSecrets Hparse) as Hvalid.
    rewrite Forall_forall in Hvalid. by apply Hvalid.
  - destruct (logf_run ("Error parsing YAML file '" +:+ filepath_Base W file
                        +:+ "': " +:+ err +:+ NL)) as (line' & ->).
    rewrite bind_Normal. by repeat constructor.
Qed.

(** X14.  In every run of [main], however it ends, every call of
    [compareSecrets] is made with a local secret that passed the loader's
    tests (kind [Secret], a name, a namespace, at least one entry of
    [stringData]) and with exactly the pointer that [getDeployedSecret]
    returned, together with a nil error, for the namespace and name of that
    secret. *)
Theorem main_calls_are_well_formed (W : World) (dir pattern : string)
    (local : KubernetesSecret) (deployed : option DeployedSecret) :
  CallCompare local deployed ∈ (main W dir pattern).1 →
  (Kind local = "Secret"
   ∧ Name (metadata local) ≠ EmptyString
   ∧ Namespace (metadata local) ≠ EmptyString
   ∧ StringData local ≠ ∅)
  ∧ getDeployedSecret W (Namespace (metadata local)) (Name (metadata local))
    = (deployed, None).
Proof.
  intros Hin.
  assert (Forall (wellFormedCall W) (main W dir pattern).1) as Hall.
  { unfold main. destruct (clientError W); [by repeat constructor|].
    destruct (globAll W (parsePatterns W pattern dir) []) as [files|[p err]];
      [|by repeat constructor].
    case_decide; [by repeat constructor|].
    pose proof (trace_forEach (wellFormedCall W) (processFile W) files false
                  (λ file _ flag, processFile_calls W file flag)) as Hloop.
    destruct (forEach (processFile W) files false) as [t [[]|]]; cbn [fst] in *;
      [apply Forall_app; split; [done|by repeat constructor]..|done]. }
  rewrite Forall_forall in Hall. apply Hall in Hin as [Hvalid Hfetch].
  split; [|done]. unfold rejected, supportedKinds in Hvalid.
  rewrite list_elem_of_singleton in Hvalid.
  split_and!; [|intros ?; apply Hvalid; auto..].
  destruct (decide (Kind local = "Secret")); [done|]. exfalso. apply Hvalid. auto.
Qed.

Lemma main_calls_are_well_formed_example :
  CallCompare exampleMatching
      (getDeployedSecret (exampleWorld [Document exampleMatching]) "staging" "same").1
    ∈ (main (exampleWorld [Document exampleMatching]) defaultDir defaultPattern).1
  ∧ StringData exampleMatching ≠ ∅
  ∧ getDeployedSecret (exampleWorld [Document exampleMatching]) "staging" "same"
    = ((getDeployedSecret (exampleWorld [Document exampleMatching])
          "staging" "same").1, None).
Proof.
  assert (CallCompare exampleMatching
            (getDeployedSecret (exampleWorld [Document exampleMatching])
               "staging" "same").1
          ∈ (main (exampleWorld [Document exampleMatching])
               defaultDir defaultPattern).1) as Hin.
  { apply list_elem_of_lookup. exists 2. vm_compute. reflexivity. }
  split; [exact Hin|].
  destruct (main_calls_are_well_formed _ _ _ _ _ Hin) as [(_ & _ & _ & Hdata) Hfetch].
  split; [exact Hdata|exact Hfetch].
Defined.

Lemma forEach_panic {A S} (body : A → S → Run S) (l : list A) (s : S) t :
  forEach body l s = (t, Panic) →
  ∃ a s' before t', a ∈ l ∧ body a s' = (t', Panic) ∧ t = before ++ t'.
Proof.
  revert s t. induction l as [|a l IH]; intros s t; cbn [forEach]; [done|].
  destruct (body a s) as [t1 [s1|]] eqn:Hbody.
  - rewrite bind_Normal.
    destruct (forEach body l s1) as [t2 r] eqn:Hrest. cbn [fst snd].
    intros [= <- ->].
    destruct (IH _ _ Hrest) as (a' & s' & before & t' & Hin & Hpanic & ->).
    exists a', s', (t1 ++ before), t'. split_and!; [by right|done|].
    by rewrite app_assoc.
  - rewrite bind_Panic. intros [= <-].
    exists a, s, [], t1. split_and!; [by left|done..].
Qed.

Lemma processSecret_panic W localSecret flag t :
  processSecret W localSecret flag = (t, Panic) →
  (∃ err,
     clusterGet W (Namespace (metadata localSecret)) (Name (metadata localSecret))
       = inr err
     ∧ IsNotFound err = true)
  ∧ last t = Some (CallCompare localSecret None).
Proof.
  destruct (processSecret_run W localSecret flag) as (line & ->).
  unfold getDeployedSecret.
  destruct (clusterGet W _ _) as [secret|err] eqn:Hget.
  - rewrite compareSecrets_Normal.
    match goal with
    | |- context [reportDifferences ?s ?d ?f] =>
        destruct (reportDifferences_quiet s d f) as (t' & -> & _)
    end.
    done.
  - destruct (IsNotFound err) eqn:Hnf; [|done].
    cbn [compareSecrets]. intros [= <-]. split; [by eauto|done].
Qed.

Lemma processFile_panic W file flag t :
  processFile W file flag = (t, Panic) →
  ∃ localSecret err,
    clusterGet W (Namespace (metadata localSecret)) (Name (metadata localSecret))
      = inr err
    ∧ IsNotFound err = true
    ∧ last t = Some (CallCompare localSecret None).
Proof.
  unfold processFile.
  destruct (logf_run ("Processing file: " +:+ filepath_Base W file +:+ NL))
    as (line & ->).
  rewrite bind_Normal.
  destruct (emits_inv _ _ (parseYAMLSecrets_logs W file))
    as (logs & parsed & -> & _).
  rewrite bind_Normal. cbn [fst snd].
  destruct parsed as [localSecrets|err].
  - destruct (forEach (processSecret W) localSecrets flag) as [t' r] eqn:Hloop.
    cbn [fst snd]. intros [= <- ->].
    destruct (forEach_panic _ _ _ _ Hloop)
      as (localSecret & flag' & before & t'' & _ & Hpanic & ->).
    destruct (processSecret_panic _ _ _ _ Hpanic) as ((err & Hget & Hnf) & Hlast).
    exists localSecret, err. split_and!; [done..|].
    destruct (processSecret_run W localSecret flag') as (line' & Hrun).
    rewrite Hpanic in Hrun.
    assert (∃ front, t'' = front ++ [CallCompare localSecret None]) as (front & ->).
    { revert Hlast. clear. induction t'' as [|e t'' IH] using rev_ind; [done|].
      rewrite last_snoc. intros [= ->]. eauto. }
    change (?x :: ?l ++ ?y) with ((x :: l) ++ y).
    by rewrite !app_assoc, last_snoc.
  - destruct (logf_run ("Error parsing YAML file '" +:+ filepath_Base W file
                        +:+ "': " +:+ err +:+ NL)) as (line' & ->).
    by rewrite bind_Normal.
Qed.

(** X15.  Once the flags are parsed (lines 59-175: [flag.Parse] has
    returned the values of [--dir] and [--pattern]), the run ends with
    status 0, 1 or 2, and with status 2 only when it crashed on a resource
    that is not deployed: then the cluster answered "not found" for the
    namespace and name of some local secret, and the last thing the run did
    was to call [compareSecrets] on that secret with a nil pointer.  (The
    flag package itself ends a run with an unknown flag before this
    point.) *)
Theorem crash_only_on_absent (W : World) (dir pattern : string) :
  (exitStatus (main W dir pattern).2 = 0%Z
   ∨ exitStatus (main W dir pattern).2 = 1%Z
   ∨ exitStatus (main W dir pattern).2 = 2%Z)
  ∧ (exitStatus (main W dir pattern).2 = 2%Z →
     ∃ localSecret err,
       clusterGet W (Namespace (metadata localSecret))
         (Name (metadata localSecret)) = inr err
       ∧ IsNotFound err = true
       ∧ last (main W dir pattern).1 = Some (CallCompare localSecret None)).
Proof.
  pose proof (main_cases W dir pattern) as Hcases.
  destruct (main W dir pattern) as [trace [| |code|]]; cbn [fst snd exitStatus].
  - split; [auto|done].
  - split; [auto|done].
  - destruct Hcases as (files & loopTrace & flag & _ & _ & _ & _ & -> & _).
    destruct flag; (split; [auto|done]).
  - split; [auto|]. intros _.
    destruct Hcases as (files & _ & _ & Hloop).
    destruct (forEach_panic _ _ _ _ Hloop)
      as (file & flag & before & t' & _ & Hpanic & ->).
    destruct (processFile_panic _ _ _ _ Hpanic)
      as (localSecret & err & Hget & Hnf & Hlast).
    exists localSecret, err. split_and!; [done..|].
    assert (∃ front, t' = front ++ [CallCompare localSecret None]) as (front & ->).
    { revert Hlast. clear. induction t' as [|e t' IH] using rev_ind; [done|].
      rewrite last_snoc. intros [= ->]. eauto. }
    by rewrite app_assoc, last_snoc.
Qed.

Lemma crash_only_on_absent_example :
  exitStatus (main (exampleWorld [Document exampleAbsent; Document exampleMatching])
                defaultDir defaultPattern).2 = 2%Z
  ∧ ∃ localSecret err,
      clusterGet (exampleWorld [Document exampleAbsent; Document exampleMatching])
        (Namespace (metadata localSecret)) (Name (metadata localSecret)) = inr err
      ∧ IsNotFound err = true.
Proof.
  assert (exitStatus
            (main (exampleWorld [Document exampleAbsent; Document exampleMatching])
               defaultDir defaultPattern).2 = 2%Z) as Hstatus
    by (vm_compute; reflexivity).
  split; [exact Hstatus|].
  destruct (proj2 (crash_only_on_absent _ _ _) Hstatus)
    as (localSecret & err & Hget & Hnf & _).
  by exists localSecret, err.
Defined.

Lemma TrimLeft_blank s :
  (∀ b, b ∈ bytes s → Ascii.is_space b = true) → GoStrings.TrimLeft s = EmptyString.
Proof.
  induction s as [|a s IH]; intros Hblank; [done|].
  cbn [GoStrings.TrimLeft].
  rewrite (Hblank a) by (unfold bytes; simpl; by left).
  apply IH. intros b Hb. apply Hblank. unfold bytes in *; simpl. by right.
Qed.

Lemma TrimSpace_blank s :
  (∀ b, b ∈ bytes s → Ascii.is_space b = true) → GoStrings.TrimSpace s = EmptyString.
Proof.
  intros Hblank. unfold GoStrings.TrimSpace. by rewrite (TrimLeft_blank s Hblank).
Qed.

(** The bytes of a piece are bytes of the string, and none is the
    separator. *)
Lemma Split_pieces_bytes s c piece b :
  piece ∈ GoStrings.Split s c → b ∈ bytes piece → b ∈ bytes s ∧ b ≠ c.
Proof.
  revert piece. induction s as [|a s IH]; intros piece; simpl.
  - rewrite elem_of_cons. intros [->|?%elem_of_nil]; [|done].
    unfold bytes; simpl. by intros ?%elem_of_nil.
  - destruct (decide (a = c)) as [->|Hne].
    + rewrite elem_of_cons. intros [->|Hin].
      * unfold bytes; simpl. by intros ?%elem_of_nil.
      * intros Hb. destruct (IH _ Hin Hb) as [Hs Hc]. split; [|done].
        unfold bytes in *; simpl. by right.
    + pose proof (Split_not_nil s c) as Hnn.
      destruct (GoStrings.Split s c) as [|q qs]; [done|].
      rewrite elem_of_cons. intros [->|Hin].
      * unfold bytes at 1; simpl. rewrite elem_of_cons. intros [->|Hb].
        -- split; [|done]. unfold bytes; simpl. by left.
        -- destruct (IH q) as [Hs Hc]; [by left|exact Hb|]. split; [|done].
           unfold bytes in *; simpl. by right.
      * intros Hb. destruct (IH piece) as [Hs Hc]; [by right|exact Hb|].
        split; [|done]. unfold bytes in *; simpl. by right.
Qed.

Lemma parsePatterns_blank W patternStr dir :
  blankPattern patternStr → parsePatterns W patternStr dir = [].
Proof.
  intros Hblank. unfold parsePatterns.
  assert (Forall (λ p, GoStrings.TrimSpace p = EmptyString)
            (GoStrings.Split patternStr ","%char)) as Hpieces.
  { apply Forall_forall. intros piece Hin. apply TrimSpace_blank. intros b Hb.
    destruct (Split_pieces_bytes _ _ _ _ Hin Hb) as [Hs Hc].
    by destruct (Hblank b Hs). }
  induction Hpieces as [|p ps Hp _ IH]; [done|].
  cbn [foldl]. rewrite Hp. by rewrite decide_False by (by intros ?).
Qed.

(** X16.  A [--pattern] value that holds nothing but commas and white
    space gives no glob pattern at all; with a working client [main] then
    has nothing to hand to [filepath.Glob], logs the one line that no file
    was found, and ends with status 0. *)
Theorem blank_pattern_finds_nothing (W : World) (dir pattern : string) :
  clientError W = None →
  blankPattern pattern →
  parsePatterns W pattern dir = []
  ∧ main W dir pattern
    = ([LogLine ("No YAML files matching the specified patterns were found in the directory."
                 +:+ NL)], Returned)
  ∧ exitStatus (main W dir pattern).2 = 0%Z.
Proof.
  intros Hclient Hblank.
  pose proof (parsePatterns_blank W pattern dir Hblank) as Hnone.
  assert (main W dir pattern
          = ([LogLine ("No YAML files matching the specified patterns were found in the directory."
                       +:+ NL)], Returned)) as Hmain.
  { unfold main. by rewrite Hclient, Hnone. }
  split_and!; [done..|]. by rewrite Hmain.
Qed.

Lemma blank_pattern_finds_nothing_example :
  main (exampleWorld exampleBrokenDocs) defaultDir " , ,  "
  = ([LogLine ("No YAML files matching the specified patterns were found in the directory."
               +:+ NL)], Returned).
Proof.
  refine (proj1 (proj2 (blank_pattern_finds_nothing
                          (exampleWorld exampleBrokenDocs) defaultDir " , ,  "
                          eq_refl _))).
  intros b. unfold bytes. simpl. rewrite !elem_of_cons, elem_of_nil.
  intros [->|[->|[->|[->|[->|[->|[]]]]]]]; auto.
Defined.

Lemma globAll_refused W before pattern after files err :
  Forall (λ q, ∃ matchedFiles, filepath_Glob W q = inl matchedFiles) before →
  filepath_Glob W pattern = inr err →
  globAll W (before ++ pattern :: after) files = inr (pattern, err).
Proof.
  intros Hbefore Hrefused. revert files.
  induction Hbefore as [|q qs (matchedFiles & Hq) _ IH]; intros files.
  - cbn [app globAll]. by rewrite Hrefused.
  - cbn [app globAll]. rewrite Hq. apply IH.
Qed.

(** X17.  The first glob pattern that [filepath.Glob] refuses aborts the
    run: whatever the earlier patterns matched, [main] processes no file,
    logs one line that names that pattern with the error, and ends with
    status 1. *)
Theorem refused_pattern_aborts (W : World) (dir pattern : string)
    (before after : list string) (refused err : string) :
  clientError W = None →
  parsePatterns W pattern dir = before ++ refused :: after →
  Forall (λ q, ∃ matchedFiles, filepath_Glob W q = inl matchedFiles) before →
  filepath_Glob W refused = inr err →
  main W dir pattern
  = ([LogLine (logOutput ("Error processing pattern '" +:+ refused +:+ "': " +:+ err))],
     Fatal)
  ∧ exitStatus (main W dir pattern).2 = 1%Z.
Proof.
  intros Hclient Hpatterns Hbefore Hrefused.
  assert (main W dir pattern
          = ([LogLine (logOutput ("Error processing pattern '" +:+ refused
                                  +:+ "': " +:+ err))], Fatal)) as Hmain.
  { unfold main. rewrite Hclient, Hpatterns.
    by rewrite (globAll_refused W before refused after [] err Hbefore Hrefused). }
  split; [done|]. by rewrite Hmain.
Qed.

Lemma refused_pattern_aborts_example :
  filepath_Glob exampleBadGlob "./*secret*.yaml" = inl ["./app-secret.yaml"]
  ∧ main exampleBadGlob defaultDir "*secret*.yaml, [x"
    = ([LogLine ("Error processing pattern './[x': syntax error in pattern" +:+ NL)],
       Fatal).
Proof.
  split; [reflexivity|].
  refine (proj1 (refused_pattern_aborts exampleBadGlob defaultDir
                   "*secret*.yaml, [x" ["./*secret*.yaml"] [] "./[x"
                   "syntax error in pattern" eq_refl _ _ eq_refl)).
  - vm_compute. reflexivity.
  - constructor; [|constructor]. by eexists.
Defined.

Lemma compareKeys_nil_iff (localData deployedData : gmap string string) :
  compareKeys localData deployedData
    (elements (dom deployedData ∪ (dom localData ∪ ∅))) = []
  ↔ localData = deployedData.
Proof.
  split.
  - intros Hnil. rewrite compareKeys_filter in Hnil.
    apply fmap_nil_inv in Hnil. apply map_eq. intros key.
    destruct (decide (localData !! key = deployedData !! key)) as [|Hne]; [done|].
    exfalso. eapply (filter_nil_not_elem_of _ _ key Hnil Hne).
    apply keysSet_elem.
    destruct (localData !! key); [left; eauto|].
    destruct (deployedData !! key); [right; eauto|done].
  - intros ->. apply compareKeys_same.
Qed.

(** X18.  From the cluster's answer to the verdict on one secret.  When
    the cluster returns the secret, the flag [globalDifferencesFound] after
    the loop body is the flag before it if the local [stringData] equals the
    deployed [stringData] laid over the deployed [data] read as strings, and
    true otherwise (a flag that was set stays set in both cases).  In the
    first case the run of the loop body is the log line, the comparison and
    the one "All secrets match" text, nothing else; in the second case it
    starts with the log line, the comparison and the "Differences found"
    heading of the resource. *)
Theorem in_sync_secret_report (W : World) (localSecret : KubernetesSecret)
    (flag : bool) (secret : ClusterSecret) :
  clusterGet W (Namespace (metadata localSecret)) (Name (metadata localSecret))
    = inl secret →
  ∃ trace,
    processSecret W localSecret flag
    = (trace,
       Normal (if decide (StringData localSecret
                          = clusterStringData secret
                            ∪ (String.string_of_list_byte <$> clusterData secret))
               then flag else true))
    ∧ (StringData localSecret
       = clusterStringData secret ∪ (String.string_of_list_byte <$> clusterData secret) →
       trace
       = [LogLine ("Comparing Secret: " +:+ Name (metadata localSecret)
                   +:+ " in Namespace: " +:+ Namespace (metadata localSecret)
                   +:+ " . . . " +:+ NL);
          CallCompare localSecret
            (Some {| deployedName := clusterName secret;
                     deployedNamespace := clusterNamespace secret;
                     Data := StringData localSecret |});
          Stdout ("=== " +:+ Name (metadata localSecret) +:+ " (Namespace: "
                  +:+ Namespace (metadata localSecret) +:+ ") ===" +:+ NL
                  +:+ "All secrets match between the local file and the deployed Kubernetes secret."
                  +:+ NL +:+ NL)])
    ∧ (StringData localSecret
       ≠ clusterStringData secret ∪ (String.string_of_list_byte <$> clusterData secret) →
       ∃ rest,
         trace
         = LogLine ("Comparing Secret: " +:+ Name (metadata localSecret)
                    +:+ " in Namespace: " +:+ Namespace (metadata localSecret)
                    +:+ " . . . " +:+ NL)
           :: CallCompare localSecret
                (Some {| deployedName := clusterName secret;
                         deployedNamespace := clusterNamespace secret;
                         Data := clusterStringData secret
                                 ∪ (String.string_of_list_byte <$> clusterData secret) |})
           :: Stdout ("=== " +:+ Name (metadata localSecret) +:+ " (Namespace: "
                      +:+ Namespace (metadata localSecret) +:+ ") ===" +:+ NL
                      +:+ "Differences found:" +:+ NL)
           :: rest).
Proof.
  intros Hget. unfold processSecret.
  rewrite logf_line by (repeat apply endsWithNewline_app; reflexivity).
  rewrite bind_emit, (getDeployedSecret_found _ _ _ _ Hget).
  cbn beta iota. rewrite bind_emit, compareSecrets_Normal. cbn [Data fst snd].
  set (merged := clusterStringData secret
                 ∪ (String.string_of_list_byte <$> clusterData secret)).
  pose proof (compareKeys_nil_iff (StringData localSecret) merged) as Hnil.
  destruct (compareKeys (StringData localSecret) merged
              (elements (dom merged ∪ (dom (StringData localSecret) ∪ ∅))))
    as [|diff differences] eqn:Hdiffs.
  - assert (StringData localSecret = merged) as Heq by (by apply Hnil).
    rewrite decide_True by done.
    eexists. split_and!.
    + unfold reportDifferences. rewrite decide_True by done.
      unfold printf. rewrite bind_emit. reflexivity.
    + intros _. subst merged. by rewrite <- Heq.
    + intros Hne. by destruct Hne.
  - assert (StringData localSecret ≠ merged) as Hne.
    { intros Heq. by apply Hnil in Heq. }
    rewrite decide_False by done.
    destruct (reportLoop_run (diff :: differences) ∅ ∅) as (loopTrace & Hloop & _).
    rewrite (reportDifferences_trace localSecret (diff :: differences) flag _ _ _
               ltac:(done) Hloop).
    cbn [fst snd]. eexists. split_and!; [reflexivity| |].
    + intros Heq. by destruct Hne.
    + intros _. eexists. reflexivity.
Qed.

Lemma in_sync_secret_report_example :
  ∃ trace,
    processSecret (exampleWorld []) exampleMatching false = (trace, Normal false)
    ∧ length trace = 3.
Proof.
  destruct (in_sync_secret_report (exampleWorld []) exampleMatching false
              exampleOverlap eq_refl) as (trace & Hrun & Htrace & _).
  assert (StringData exampleMatching
          = clusterStringData exampleOverlap
            ∪ (String.string_of_list_byte <$> clusterData exampleOverlap)) as Heq
    by by_evaluation.
  exists trace. split.
  - rewrite Hrun. by rewrite decide_True by exact Heq.
  - by rewrite (Htrace Heq).
Defined.
